(** * object_spawner: a shallow embedding of [scripts/object_spawner.py]

    The script parses a list of model entries from a YAML file into a
    registry of [Model] objects keyed by de-duplicated names, and then
    spawns every model through a simulator service.

    - Python [str] is [string]; ["%s_%d" % (x, n)] prints [n] in decimal.
    - Python [float] is the kernel's binary64 [float].
    - The local dict [seen] of [rename_duplicates] is a [gmap string nat].
    - The dict returned by [parse_yaml] keeps insertion order, which the
      script relies on, so it is an association list updated in place.
    - An entry of the configuration is a mapping in which a key that is a
      field of [Model] has, when it is there, a value of the annotated
      type; its other keys are kept by name.
    - The texts that [rospkg], [open] and Python give to their exceptions
      and to a list of names are taken from the world, as the packages,
      the files and the services are. *)

From Stdlib Require Import PrimFloat Ascii.
From stdpp Require Import gmap strings list pretty.

Open Scope string_scope.
Open Scope list_scope.
Open Scope nat_scope.

(** ** Name de-duplication *)

(** ["%s_%d" % (x, n)] *)
Definition fmt_s_d (x : string) (n : nat) : string := x +:+ "_" +:+ pretty n.

(** The body of the generator, with the dict [seen] passed along; the
    result is the list of the yielded values, in the order of the yields. *)
Fixpoint rename_duplicates_from (seen : gmap string nat) (old : list string)
  : list string :=
  match old with
  | [] => []
  | x :: rest =>
      match seen !! x with
      | Some n =>
          (* seen[x] += 1; yield "%s_%d" % (x, seen[x]) *)
          fmt_s_d x (S n) :: rename_duplicates_from (<[x := S n]> seen) rest
      | None =>
          (* seen[x] = 0; yield x *)
          x :: rename_duplicates_from (<[x := 0]> seen) rest
      end
  end.

(** [list(rename_duplicates(old))] *)
Definition rename_duplicates (old : list string) : list string :=
  rename_duplicates_from ∅ old.

(** How often [x] occurs in [l]. *)
Definition occurrences (x : string) (l : list string) : nat :=
  length (filter (λ y, y = x) l).

(** The name given to an occurrence of [x] that has [k] occurrences of [x]
    before it. *)
Definition renamed (x : string) (k : nat) : string :=
  match k with
  | 0 => x
  | S _ => fmt_s_d x k
  end.

(** What the dict [seen] says about [x]: the number of times it was met. *)
Definition met (seen : gmap string nat) (x : string) : nat :=
  match seen !! x with
  | Some n => S n
  | None => 0
  end.

(** ** Data model *)

(** The dataclass [Model], with the types of its annotations. The fields
    [unique_name], [pose] and [scale] default to [None]. *)
Record Model := mkModel {
  name : string;
  type : string;
  base_path : string;
  unique_name : option string;
  package : string;
  quaternion : bool;
  radians : bool;
  pose : option (list float);
  scale : option (list float);
}.

(** One entry of the list under the key [models] of the YAML document: a
    mapping from keys to values. A key that is a field of [Model] is there
    or not, and when it is there its value has the type of the field's
    annotation; [e_others] holds the keys that are no fields of [Model]. *)
Record Entry := mkEntry {
  e_name : option string;
  e_type : option string;
  e_base_path : option string;
  e_unique_name : option string;
  e_package : option string;
  e_quaternion : option bool;
  e_radians : option bool;
  e_pose : option (list float);
  e_scale : option (list float);
  e_others : list string;
}.

(** [geometry_msgs.msg.Pose] *)
Record Pose := mkPose {
  position_x : float; position_y : float; position_z : float;
  orientation_x : float; orientation_y : float;
  orientation_z : float; orientation_w : float;
}.

(** The arguments of a call of the [SpawnModel] service and its response. *)
Record SpawnRequest := mkSpawnRequest {
  req_model_name : option string;
  req_model_xml : string;
  req_robot_namespace : string;
  req_initial_pose : Pose;
  req_reference_frame : string;
}.

Record SpawnResponse := mkSpawnResponse {
  success : bool;
  status_message : string;
}.

(** The exceptions the script can meet, each with the text of [str(e)]. *)
Inductive Exn :=
| ResourceNotFound (msg : string)
| IOError (msg : string)
| UnboundLocalError (msg : string)
| ROSException (msg : string)
| ServiceException (msg : string)
| TypeError (msg : string)
| IndexError (msg : string)
| KeyError (msg : string).

Definition str_exn (e : Exn) : string :=
  match e with
  | ResourceNotFound m | IOError m | UnboundLocalError m | ROSException m
  | ServiceException m | TypeError m | IndexError m | KeyError m => m
  end.

(** Objects of class [Model] live in a heap and are passed by reference. *)
Definition ref := nat.

Inductive Level := DEBUG | INFO | ERROR.

(** What the script does to the outside, in the order it does it.
    [Called r] is a ghost event: it records that [spawn_model] was entered
    with the object [r] and stands for no output of the script. *)
Inductive Event :=
| Log (lvl : Level) (msg : string)
| Printed (msg : string)
| WaitForService (service : string) (timeout : option float)
| ServiceCall (service : string) (req : SpawnRequest)
| Sleep (duration : float)
| Called (r : ref).

Record State := mkState {
  heap : list Model;
  trace : list Event;
}.

(** A statement returns, raises, or never comes back ([Blocked]: a wait
    without a timeout for something that does not happen). *)
Inductive Outcome (A : Type) :=
| Return (a : A)
| Raise (e : Exn)
| Blocked.
Arguments Return {A} a.
Arguments Raise {A} e.
Arguments Blocked {A}.

Definition M (A : Type) : Type := State → Outcome A * State.

#[global] Instance M_ret : MRet M := λ A a s, (Return a, s).
#[global] Instance M_bind : MBind M := λ A B k c s,
  match c s with
  | (Return a, s') => k a s'
  | (Raise e, s') => (Raise e, s')
  | (Blocked, s') => (Blocked, s')
  end.

Definition raise {A} (e : Exn) : M A := λ s, (Raise e, s).

(** [try: body except ...: handler]; [handler e] is [None] when no
    [except] clause matches [e]. *)
Definition try_except {A} (body : M A) (handler : Exn → option (M A)) : M A :=
  λ s, match body s with
       | (Raise e, s') =>
           match handler e with
           | Some h => h s'
           | None => (Raise e, s')
           end
       | r => r
       end.

Definition emit (e : Event) : M unit :=
  λ s, (Return (), mkState (heap s) (trace s ++ [e])).

Definition log (lvl : Level) (msg : string) : M unit := emit (Log lvl msg).
Definition print (msg : string) : M unit := emit (Printed msg).

(** [Model(...)]: a new object. *)
Definition alloc (m : Model) : M ref :=
  λ s, (Return (length (heap s)), mkState (heap s ++ [m]) (trace s)).

(** [r.f] *)
Definition attr {A} (r : ref) (f : Model → A) : M A :=
  λ s, match heap s !! r with
       | Some m => (Return (f m), s)
       | None => (Raise (TypeError "not an object"), s)
       end.

(** [r.unique_name = v] *)
Definition set_unique_name (r : ref) (v : string) : M unit :=
  λ s, match heap s !! r with
       | Some m =>
           let m' := mkModel (name m) (type m) (base_path m) (Some v)
                       (package m) (quaternion m) (radians m) (pose m) (scale m) in
           (Return (), mkState (<[r := m']> (heap s)) (trace s))
       | None => (Raise (TypeError "not an object"), s)
       end.

(** Reading a local variable that an earlier statement may have left
    unassigned. *)
Definition local {A} (var : string) (v : option A) : M A :=
  match v with
  | Some a => mret a
  | None =>
      raise (UnboundLocalError
               ("local variable '" +:+ var +:+ "' referenced before assignment"))
  end.

(** [l[i]] for a list [l] *)
Definition subscript {A} (l : list A) (i : nat) : M A :=
  match l !! i with
  | Some a => mret a
  | None => raise (IndexError "list index out of range")
  end.

(** [str(v)] for a value that is a string or [None] *)
Definition str_opt (v : option string) : string := default "None" v.

(** [s + v] for a string [s] and a value [v] that is a string or [None] *)
Definition str_add (s : string) (v : option string) : M string :=
  match v with
  | Some t => mret (s +:+ t)
  | None => raise (TypeError "can only concatenate str (not 'NoneType') to str")
  end.

(** ** The outside of the script *)

(** [pathlib.Path], as the text of the path. *)
Record Path := mkPath { path_str : string }.

Definition starts_with_slash (s : string) : bool :=
  match s with
  | String c _ => Ascii.eqb c "/"%char
  | EmptyString => false
  end.

(** [p / s]: an absolute [s] replaces [p]. *)
Definition path_div (p : Path) (s : string) : Path :=
  if starts_with_slash s then mkPath s
  else mkPath (path_str p +:+ "/" +:+ s).

(** What the script does not decide itself: the packages [rospkg] finds,
    the files, the services of the simulator, the library function
    [tf.transformations.quaternion_from_euler], the choices of
    [random.sample], and the texts that the libraries and Python give to
    their exceptions and to a list. *)
Record World := mkWorld {
  (** the directory of a package; [None]: there is no such package *)
  pkg_path : string → option string;
  (** [safe_load] of the file at a path, then its list under [models], for
      a file that holds such a list when it can be opened; [None]: the file
      cannot be opened *)
  yaml_file : string → option (list Entry);
  (** the text of the file at a path; [None]: the file cannot be opened *)
  text_file : string → option string;
  (** whether a service becomes available to a caller that waits for it *)
  service_up : string → bool;
  (** the response of a service; [None]: the call fails *)
  service_reply : string → SpawnRequest → option SpawnResponse;
  (** the quaternion [x, y, z, w] of three angles *)
  quat_of_euler : float → float → float → float * float * float * float;
  (** [random.sample(keys, len(keys))] *)
  sample : list string → list string;
  (** [str(e)] of the [ResourceNotFound] that [rospkg] raises for a package:
      its name, then a line for each ROS path that was searched *)
  not_found : string → string;
  (** [str(e)] of the exception with which [open] fails for a path *)
  io_error : string → string;
  (** [str(e)] of the [TypeError] with which [Model] refuses the keywords of
      an entry *)
  init_error : Entry → string;
  (** [str(l)] of a list of strings *)
  str_names : list string → string;
}.

Section script.

Variable w : World.

(** [rospkg.RosPack().get_path(package_name)] *)
Definition get_path (package_name : string) : M string :=
  match pkg_path w package_name with
  | Some p => mret p
  | None => raise (ResourceNotFound (not_found w package_name))
  end.

(** [safe_load(open(path, 'r'))['models']] *)
Definition open_safe_load (path : Path) : M (list Entry) :=
  match yaml_file w (path_str path) with
  | Some l => mret l
  | None => raise (IOError (io_error w (path_str path)))
  end.

(** [open(path, 'r').read()] *)
Definition open_read (path : string) : M string :=
  match text_file w path with
  | Some t => mret t
  | None => raise (IOError (io_error w path))
  end.

(** [rospy.wait_for_service(service, timeout)]: with a timeout the wait
    ends by an exception, without one it does not end. *)
Definition wait_for_service (service : string) (timeout : option float)
  : M unit :=
  emit (WaitForService service timeout);;
  if service_up w service then mret ()
  else match timeout with
       | Some _ =>
           raise (ROSException "timeout exceeded while waiting for service")
       | None => λ s, (Blocked, s)
       end.

(** A call through a [rospy.ServiceProxy]. *)
Definition call (service : string) (req : SpawnRequest) : M SpawnResponse :=
  emit (ServiceCall service req);;
  match service_reply w service req with
  | Some res => mret res
  | None => raise (ServiceException "service call failed")
  end.

Definition sleep (d : float) : M unit := emit (Sleep d).

(** *** [parse_yaml] *)

Definition dict := list (string * ref).

(** [d[k] = v]: a key that is there keeps its place. *)
Fixpoint dict_set (d : dict) (k : string) (v : ref) : dict :=
  match d with
  | [] => [(k, v)]
  | (k', v') :: d' =>
      if decide (k' = k) then (k, v) :: d' else (k', v') :: dict_set d' k v
  end.

(** [d[k]] *)
Fixpoint dict_get (d : dict) (k : string) : M ref :=
  match d with
  | [] => raise (KeyError k)
  | (k', v) :: d' => if decide (k' = k) then mret v else dict_get d' k
  end.

(** [del d[k]] *)
Fixpoint dict_del (d : dict) (k : string) : dict :=
  match d with
  | [] => []
  | (k', v) :: d' => if decide (k' = k) then d' else (k', v) :: dict_del d' k
  end.

(** [yaml_relative_path[0] == '/'], then [yaml_relative_path[1:]] *)
Definition strip_slash (yaml_relative_path : string) : M string :=
  match yaml_relative_path with
  | EmptyString => raise (IndexError "string index out of range")
  | String c rest =>
      mret (if Ascii.eqb c "/"%char then rest else yaml_relative_path)
  end.

(** The name an entry contributes to [modelNames]. *)
Definition entry_key (model_data : Entry) : M string :=
  match e_unique_name model_data with
  | Some u => mret u
  | None =>
      match e_name model_data with
      | Some n => mret n
      | None => raise (KeyError "'name'")
      end
  end.

Fixpoint model_names (models : list Entry) : M (list string) :=
  match models with
  | [] => mret []
  | model_data :: rest =>
      k ← entry_key model_data;
      ks ← model_names rest;
      mret (k :: ks)
  end.

(** [Model] called with the entry as its keyword arguments: a key that is
    no field is refused, and [name] and [type] have no default. *)
Definition Model_init (args : Entry) : M ref :=
  match e_others args, e_name args, e_type args with
  | [], Some n, Some t =>
      alloc (mkModel n t (default "models" (e_base_path args))
               (e_unique_name args) (default "" (e_package args))
               (default false (e_quaternion args))
               (default false (e_radians args)) (e_pose args) (e_scale args))
  | _, _, _ => raise (TypeError (init_error w args))
  end.

(** [for idx, name in enumerate(modelNamesUnique)], from [idx] on. *)
Fixpoint fill_dict (names : list string) (list_of_dict : list Entry)
  (idx : nat) (model_dict : dict) : M dict :=
  match names with
  | [] => mret model_dict
  | nm :: rest =>
      args ← subscript list_of_dict idx;
      obj ← Model_init args;
      fill_dict rest list_of_dict (S idx) (dict_set model_dict nm obj)
  end.

(** [not v] for a value that is a string or [None] *)
Definition falsy (v : option string) : bool :=
  match v with
  | None => true
  | Some s => if decide (s = "") then true else false
  end.

(** [for dict_key, mod_obj in model_dict.items()], with the counter. *)
Fixpoint add_unique_names (modelNamesUnique : list string) (items : dict)
  (count : nat) : M unit :=
  match items with
  | [] => mret ()
  | (dict_key, mod_obj) :: rest =>
      u ← attr mod_obj unique_name;
      if falsy u then
        nm ← subscript modelNamesUnique count;
        set_unique_name mod_obj nm;;
        add_unique_names modelNamesUnique rest (S count)
      else add_unique_names modelNamesUnique rest count
  end.

Definition parse_yaml (package_name yaml_relative_path : string) : M dict :=
  p ← get_path package_name;
  let complete_path := mkPath p in
  yaml_relative_path ← strip_slash yaml_relative_path;
  let complete_path := path_div complete_path yaml_relative_path in
  models ← open_safe_load complete_path;
  modelNames ← model_names models;
  let modelNamesUnique := rename_duplicates modelNames in
  log INFO ("List of model names: " +:+ str_names w modelNamesUnique);;
  log DEBUG "Total number of models: ";;
  model_dict ← fill_dict modelNamesUnique models 0 [];
  add_unique_names modelNamesUnique model_dict 0;;
  mret model_dict.

End script.

(** ** [spawn_model] and the loop that calls it *)

(** [math.pi] *)
Definition pi : float := 0x1.921fb54442d18p+1%float.

(** The node's parameters; [random_order] is the value of the test
    [random_order == True]. *)
Record Params := mkParams {
  yaml_package_name : string;
  yaml_relative_path : string;
  random_order : bool;
  time_interval : float;
}.

Section spawning.

Variable w : World.

(** [model_object.pose[i]] *)
Definition pose_at (model_object : ref) (i : nat) : M float :=
  p ← attr model_object pose;
  match p with
  | Some l => subscript l i
  | None => raise (TypeError "'NoneType' object is not subscriptable")
  end.

(** [model_object.pose[i:]]: a new list *)
Definition pose_from (model_object : ref) (i : nat) : M (list float) :=
  p ← attr model_object pose;
  match p with
  | Some l => mret (drop i l)
  | None => raise (TypeError "'NoneType' object is not subscriptable")
  end.

(** The angles handed to [quaternion_from_euler]. *)
Definition to_radians (rad : bool) (roll pitch yaw : float)
  : float * float * float :=
  if negb rad then
    let degrees2rad := (pi / 180)%float in
    ((roll * degrees2rad)%float, (pitch * degrees2rad)%float,
     (yaw * degrees2rad)%float)
  else (roll, pitch, yaw).

(** The list [quat]. *)
Definition orientation (model_object : ref) : M (list float) :=
  q ← attr model_object quaternion;
  if q : bool then pose_from model_object 3
  else
    roll ← pose_at model_object 3;
    pitch ← pose_at model_object 4;
    yaw ← pose_at model_object 5;
    rad ← attr model_object radians;
    let '(roll, pitch, yaw) := to_radians rad roll pitch yaw in
    let '(qx, qy, qz, qw) := quat_of_euler w roll pitch yaw in
    mret [qx; qy; qz; qw].

(** The message [spawn_pose]. *)
Definition make_pose (model_object : ref) : M Pose :=
  x ← pose_at model_object 0;
  y ← pose_at model_object 1;
  z ← pose_at model_object 2;
  quat ← orientation model_object;
  qx ← subscript quat 0;
  qy ← subscript quat 1;
  qz ← subscript quat 2;
  qw ← subscript quat 3;
  mret (mkPose x y z qx qy qz qw).

Definition cannot_find_package (package_name : string) (e : Exn) : string :=
  "Cannot find package [" +:+ package_name
  +:+ "], check package name and that package exists, error message:  "
  +:+ str_exn e.

(** [p + s] for a [Path] and a string: neither class defines the sum, so
    the expression raises. *)
Definition path_add (p : Path) (s : string) : M string :=
  raise (TypeError "unsupported operand type(s) for +: 'PosixPath' and 'str'").

(** The first [try] of the branch for ['sdf']; the result is the locals
    [model_path] and [model_xml], [None] when unassigned. *)
Definition sdf_find_package (model_object : ref) (package_name : string)
  : M (option Path * option string) :=
  try_except
    (p ← get_path w package_name;
     let model_path := mkPath p in
     bp ← attr model_object base_path;
     let model_path := path_div model_path bp in
     mret (Some model_path, Some ""))
    (λ e, match e with
          | ResourceNotFound _ =>
              Some (log ERROR (cannot_find_package package_name e);;
                    mret (None, None))
          | _ => None
          end).

(** [s.replace('\n', '')] *)
Fixpoint remove_newlines (s : string) : string :=
  match s with
  | EmptyString => EmptyString
  | String c rest =>
      if Ascii.eqb c "010"%char then remove_newlines rest
      else String c (remove_newlines rest)
  end.

(** The second [try] of the branch for ['sdf']; the result is [model_xml]. *)
Definition sdf_read_model (model_object : ref) (package_name : string)
  (model_path : option Path) (model_xml : option string)
  : M (option string) :=
  try_except
    (mp ← local "model_path" model_path;
     nm ← attr model_object name;
     txt ← open_read w (path_str (path_div (path_div mp nm) "model.sdf"));
     mret (Some (remove_newlines txt)))
    (λ e, match e with
          | IOError _ =>
              Some (nm ← attr model_object name;
                    log ERROR
                      ("Cannot find or open model [1] [" +:+ nm
                       +:+ "], check model name and that model exists, I/O error message:  "
                       +:+ str_exn e);;
                    mret model_xml)
          | UnboundLocalError _ =>
              Some (log DEBUG (cannot_find_package package_name e);;
                    mret model_xml)
          | _ => None
          end).

Definition service_call_failed (e : Exn) : option (M (option string)) :=
  match e with
  | ServiceException _ | ROSException _ =>
      Some (log ERROR ("Service call failed: " +:+ str_exn e);; mret None)
  | _ => None
  end.

(** The third [try] of the branch for ['sdf']; the result is
    [spawn_model_prox], the proxy being the name of its service. *)
Definition sdf_wait : M (option string) :=
  try_except
    (log DEBUG "Waiting for service gazebo/spawn_sdf_model";;
     wait_for_service w "gazebo/spawn_sdf_model" (Some 5%float);;
     mret (Some "gazebo/spawn_sdf_model"))
    service_call_failed.

(** The first [try] of the branch for ['urdf']; the result is [model_xml]. *)
Definition urdf_read_model (model_object : ref) (package_name : string)
  : M (option string) :=
  try_except
    (p ← get_path w package_name;
     let model_path := path_div (mkPath p) "urdf" in
     nm ← attr model_object name;
     stem ← path_add (path_div model_path nm) ".";
     ty ← attr model_object type;
     file_xml ← open_read w (stem +:+ ty);
     mret (Some file_xml))
    (λ e, match e with
          | IOError _ =>
              Some (nm ← attr model_object name;
                    log ERROR
                      ("Cannot find model [2] [" +:+ nm
                       +:+ "], check model name and that model exists, I/O error message:  "
                       +:+ str_exn e);;
                    mret None)
          | UnboundLocalError _ =>
              Some (log DEBUG (cannot_find_package package_name e);;
                    mret None)
          | _ => None
          end).

(** The second [try] of the branch for ['urdf']; the result is
    [spawn_model_prox]. *)
Definition urdf_wait : M (option string) :=
  try_except
    (log DEBUG "Waiting for service gazebo/spawn_urdf_model";;
     wait_for_service w "gazebo/spawn_urdf_model" None;;
     mret (Some "/gazebo/spawn_urdf_model"))
    service_call_failed.

(** The last [try] of [spawn_model]. *)
Definition call_spawn (model_object : ref) (package_name : string)
  (model_xml spawn_model_prox : option string) (spawn_pose : Pose) : M unit :=
  try_except
    (u ← attr model_object unique_name;
     print ("Now spawning: " +:+ str_opt u);;
     prox ← local "spawn_model_prox" spawn_model_prox;
     u ← attr model_object unique_name;
     xml ← local "model_xml" model_xml;
     res ← call w prox (mkSpawnRequest u xml "" spawn_pose "world");
     if success res then
       nm ← attr model_object name;
       u ← attr model_object unique_name;
       msg ← str_add (status_message res +:+ " " +:+ nm +:+ " as ") u;
       log INFO msg
     else
       nm ← attr model_object name;
       log ERROR ("Error: model " +:+ nm +:+ " not spawn, error message = "
                  +:+ status_message res))
    (λ e, match e with
          | UnboundLocalError _ =>
              Some (log DEBUG (cannot_find_package package_name e))
          | _ => None
          end).

Definition spawn_model (model_object : ref) : M unit :=
  emit (Called model_object);;
  package_name ← attr model_object package;
  spawn_pose ← make_pose model_object;
  ty ← attr model_object type;
  if decide (ty = "sdf") then
    '(model_path, model_xml) ← sdf_find_package model_object package_name;
    model_xml ← sdf_read_model model_object package_name model_path model_xml;
    spawn_model_prox ← sdf_wait;
    call_spawn model_object package_name model_xml spawn_model_prox spawn_pose
  else
    ty ← attr model_object type;
    if decide (ty = "urdf") then
      model_xml ← urdf_read_model model_object package_name;
      spawn_model_prox ← urdf_wait;
      call_spawn model_object package_name model_xml spawn_model_prox spawn_pose
    else
      ty ← attr model_object type;
      log ERROR ("Error: Model type not know, model_type = " +:+ ty);;
      call_spawn model_object package_name None None spawn_pose.

(** [if time_interval > 0: rospy.sleep(rospy.Duration(time_interval))] *)
Definition pause (time_interval : float) : M unit :=
  if (0 <? time_interval)%float then sleep time_interval else mret ().

(** [for key in random.sample(m.keys(), len(m))], over the keys left. *)
Fixpoint spawn_sampled (time_interval : float) (m : dict) (keys : list string)
  : M unit :=
  match keys with
  | [] => mret ()
  | key :: rest =>
      obj ← dict_get m key;
      spawn_model obj;;
      let m := dict_del m key in
      pause time_interval;;
      spawn_sampled time_interval m rest
  end.

(** [for key in m], over the keys left. *)
Fixpoint spawn_stored (time_interval : float) (m : dict) (keys : list string)
  : M unit :=
  match keys with
  | [] => mret ()
  | key :: rest =>
      obj ← dict_get m key;
      spawn_model obj;;
      pause time_interval;;
      spawn_stored time_interval m rest
  end.

Definition main (p : Params) : M unit :=
  m ← parse_yaml w (yaml_package_name p) (yaml_relative_path p);
  if random_order p then
    try_except (spawn_sampled (time_interval p) m (sample w m.*1))
      (λ _, Some (mret ()))
  else spawn_stored (time_interval p) m m.*1.

End spawning.

(** ** Observations and vocabulary of the statements *)

(** The spawn calls of a trace, and the objects [spawn_model] was entered
    with, both in order. *)
Definition service_calls (t : list Event) : list (string * SpawnRequest) :=
  omap (λ e, match e with ServiceCall srv req => Some (srv, req) | _ => None end) t.

Definition calls (t : list Event) : list ref :=
  omap (λ e, match e with Called r => Some r | _ => None end) t.

(** The pauses of a trace. *)
Definition sleeps (t : list Event) : list float :=
  omap (λ e, match e with Sleep d => Some d | _ => None end) t.

(** [quiet P c]: the statement [c] assigns to no object, and every event
    it adds to the trace satisfies [P]. *)
Definition quiet {A} (P : Event → Prop) (c : M A) : Prop :=
  ∀ s, heap (c s).2 = heap s ∧
       ∃ evs, trace (c s).2 = trace s ++ evs ∧ Forall P evs.

(** [reads c]: the statement [c] leaves the state as it is. *)
Definition reads {A} (c : M A) : Prop := ∀ s, (c s).2 = s.

(** [ends c]: the statement [c] returns or raises, in every state. *)
Definition ends {A} (c : M A) : Prop := ∀ s, (c s).1 ≠ Blocked.

(** The character [c] occurs in the string [s]. *)
Fixpoint occurs_in (c : ascii) (s : string) : Prop :=
  match s with
  | EmptyString => False
  | String c' s' => c' = c ∨ occurs_in c s'
  end.

(** [emits P c]: every event the statement [c] adds to the trace
    satisfies [P]. *)
Definition emits {A} (P : Event → Prop) (c : M A) : Prop :=
  ∀ s, ∃ evs, trace (c s).2 = trace s ++ evs ∧ Forall P evs.

Definition is_Log (e : Event) : Prop :=
  match e with Log _ _ => True | _ => False end.

(** Neither the entry of [spawn_model] nor a pause. *)
Definition plain (e : Event) : Prop :=
  match e with Called _ | Sleep _ => False | _ => True end.

(** The value of the key [k] in the dict [d], if it is there. *)
Fixpoint dict_lookup (d : dict) (k : string) : option ref :=
  match d with
  | [] => None
  | (k', v) :: d' => if decide (k' = k) then Some v else dict_lookup d' k
  end.

(** The pauses of a loop over [n] models. *)
Definition pauses (time_interval : float) (n : nat) : list float :=
  if (0 <? time_interval)%float then replicate n time_interval else [].

(** [spawn_model] adds no event [Called] but the one of its own entry. *)
Definition not_Called (e : Event) : Prop :=
  match e with Called _ => False | _ => True end.

(** The state [s] with the events [evs] added. *)
Definition after (s : State) (evs : list Event) : State :=
  mkState (heap s) (trace s ++ evs).


(** The pose message of a model whose list [pose] has the shape its flag
    [quaternion] announces: seven numbers, or six with three angles. *)
Inductive pose_of (w : World) (m : Model) : Pose → Prop :=
| pose_of_quaternion x y z qx qy qz qw :
    quaternion m = true →
    pose m = Some [x; y; z; qx; qy; qz; qw] →
    pose_of w m (mkPose x y z qx qy qz qw)
| pose_of_euler x y z roll pitch yaw a b c qx qy qz qw :
    quaternion m = false →
    pose m = Some [x; y; z; roll; pitch; yaw] →
    to_radians (radians m) roll pitch yaw = (a, b, c) →
    quat_of_euler w a b c = (qx, qy, qz, qw) →
    pose_of w m (mkPose x y z qx qy qz qw).

(** The entry [e] is listed under the name [n]: under its [unique_name]
    when the key is there, under its [name] otherwise. *)
Definition listed (e : Entry) (n : string) : Prop :=
  e_unique_name e = Some n ∨ (e_unique_name e = None ∧ e_name e = Some n).

(** An entry that [Model] accepts: it has the two keys without a default
    and no key that is not a field. *)
Definition complete (e : Entry) : Prop :=
  is_Some (e_name e) ∧ is_Some (e_type e) ∧ e_others e = [].

(** What the object [m] has of the entry [e]: every field but
    [unique_name], a missing key giving the default of the dataclass. *)
Definition made_from (e : Entry) (m : Model) : Prop :=
  e_name e = Some (name m) ∧ e_type e = Some (type m) ∧
  base_path m = default "models" (e_base_path e) ∧
  package m = default "" (e_package e) ∧
  quaternion m = default false (e_quaternion e) ∧
  radians m = default false (e_radians e) ∧
  pose m = e_pose e ∧ scale m = e_scale e.

(** The objects [m] and [m'] differ in [unique_name] at most. *)
Definition alike (m m' : Model) : Prop :=
  name m' = name m ∧ type m' = type m ∧ base_path m' = base_path m ∧
  package m' = package m ∧ quaternion m' = quaternion m ∧
  radians m' = radians m ∧ pose m' = pose m ∧ scale m' = scale m.

(** [kept m m']: the object [m'] is [m], but for a unique name it has got
    when [m] had none. *)
Definition kept (m m' : Model) : Prop :=
  alike m m' ∧ (falsy (unique_name m) = false → m' = m).

(** How many of the unique names [l] are missing or empty. *)
Fixpoint unnamed (l : list (option string)) : nat :=
  match l with
  | [] => 0
  | u :: l' => (if falsy u then 1 else 0) + unnamed l'
  end.

(** The dict after [d[k] = r] for each pair of [krs], in order. *)
Definition dict_set_all (d : dict) (krs : list (string * ref)) : dict :=
  foldl (λ d kr, dict_set d kr.1 kr.2) d krs.

(** The path of the configuration file: the directory of the package
    with the relative path, less its leading slash. *)
Definition yaml_path (p : string) (c : ascii) (rest : string) : string :=
  path_str (path_div (mkPath p)
              (if Ascii.eqb c "/"%char then rest else String c rest)).

(** The two lines [parse_yaml] logs. *)
Definition parse_yaml_logs (w : World) (names : list string) : list Event :=
  [Log INFO ("List of model names: " +:+ str_names w (rename_duplicates names));
   Log DEBUG "Total number of models: "].

(** ** Concrete inputs *)

(** An entry with a name, a type, maybe a unique name, and a package, at
    position (1, 2, 3) with all three angles zero. *)
Definition entry (n t : string) (u : option string) (pk : string) : Entry :=
  mkEntry (Some n) (Some t) None u (Some pk) None None
    (Some [1; 2; 3; 0; 0; 0]%float) None [].

(** The object [Model(name=n, type=t, package=pk, unique_name=n,
    pose=[1, 2, 3, 0, 0, 0])]. *)
Definition model (n t pk : string) : Model :=
  mkModel n t "models" (Some n) pk false false
    (Some [1; 2; 3; 0; 0; 0]%float) None.

(** A wait for a service has the timeout of five seconds. *)
Definition bounded_wait (e : Event) : Prop :=
  match e with WaitForService _ t => t = Some 5%float | _ => True end.

(** The entries of [spawn_model] and the pauses of a trace, in the order
    of the trace. *)
Definition steps (t : list Event) : list Event :=
  omap (λ e, match e with Called _ | Sleep _ => Some e | _ => None end) t.

(** What [pause] shows in a trace. *)
Definition pause_steps (time_interval : float) : list Event :=
  if (0 <? time_interval)%float then [Sleep time_interval] else [].

(** What a loop over the objects [refs] that comes to its end shows in a
    trace: for each object in turn its entry of [spawn_model], then the
    pause. *)
Fixpoint spawn_steps (time_interval : float) (refs : list ref) : list Event :=
  match refs with
  | [] => []
  | r :: refs' =>
      Called r :: pause_steps time_interval ++ spawn_steps time_interval refs'
  end.

(** [str(l)] for a list of names in which no character is a quote, a
    backslash or not printable: each name between single quotes. *)
Definition plain_names (l : list string) : string :=
  "[" +:+ String.concat ", " ((λ s, "'" +:+ s +:+ "'") <$> l) +:+ "]".

(** A world with the single package [pkg] at [/opt/pkg], which holds the
    configuration [config/models.yaml] with the entries [models], the SDF
    model [table] and the file [urdf/arm.urdf]. Every service is available
    or not as [up] says, and answers a call as [reply] says. Zero angles
    give the identity quaternion; [random.sample] reverses its input. No
    ROS path is set, so that the text of a missing package is its name; a
    file that cannot be opened does not exist. *)
Definition world (models : list Entry) (up : bool)
  (reply : option SpawnResponse) : World :=
  mkWorld
    (λ p, if decide (p = "pkg") then Some "/opt/pkg" else None)
    (λ f, if decide (f = "/opt/pkg/config/models.yaml") then Some models
          else None)
    (λ f, if decide (f = "/opt/pkg/models/table/model.sdf") then Some "<sdf/>"
          else if decide (f = "/opt/pkg/urdf/arm.urdf") then Some "<robot/>"
          else None)
    (λ _, up)
    (λ _ _, reply)
    (λ _ _ _, (0, 0, 0, 1)%float)
    reverse
    (λ p, p)
    (λ f, "[Errno 2] No such file or directory: '" +:+ f +:+ "'")
    (λ _, "__init__() missing 1 required positional argument: 'type'")
    plain_names.

Definition spawned : option SpawnResponse :=
  Some (mkSpawnResponse true "SpawnModel: Successfully spawned entity").

Definition start : State := mkState [] [].

(** ** Facts about [rename_duplicates] *)

Section rename_duplicates_facts.

Lemma occurrences_cons_eq x l : occurrences x (x :: l) = S (occurrences x l).
Proof. unfold occurrences. rewrite filter_cons_True; done. Qed.

Lemma occurrences_cons_ne x y l :
  y ≠ x → occurrences x (y :: l) = occurrences x l.
Proof. intros. unfold occurrences. rewrite filter_cons_False; done. Qed.

Lemma occurrences_app x l1 l2 :
  occurrences x (l1 ++ l2) = occurrences x l1 + occurrences x l2.
Proof. unfold occurrences. by rewrite filter_app, length_app. Qed.

Lemma met_insert_eq seen x n : met (<[x := n]> seen) x = S n.
Proof. unfold met. by rewrite lookup_insert_eq. Qed.

Lemma met_insert_ne seen x y n : y ≠ x → met (<[y := n]> seen) x = met seen x.
Proof. intros. unfold met. by rewrite lookup_insert_ne. Qed.

Lemma rename_duplicates_from_length seen old :
  length (rename_duplicates_from seen old) = length old.
Proof.
  revert seen. induction old as [|x rest IH]; intros seen; [done|].
  simpl. destruct (seen !! x); simpl; by rewrite IH.
Qed.

(** The generator's invariant: at every yield the dict holds, for each
    name, how often it has been met so far. *)
Lemma rename_duplicates_from_lookup seen old i x :
  old !! i = Some x →
  rename_duplicates_from seen old !! i
  = Some (renamed x (met seen x + occurrences x (take i old))).
Proof.
  revert seen i. induction old as [|y rest IH]; intros seen i Hi; [done|].
  destruct i as [|i]; simpl in Hi.
  - injection Hi as ->. simpl. unfold met, occurrences.
    destruct (seen !! x) as [n|]; simpl; [|done].
    by rewrite Nat.add_0_r.
  - simpl take. destruct (decide (y = x)) as [->|Hne].
    + rewrite occurrences_cons_eq. simpl.
      destruct (seen !! x) as [n|] eqn:Hs; simpl;
        rewrite (IH _ _ Hi), met_insert_eq; unfold met; rewrite Hs;
        do 2 f_equal; lia.
    + rewrite occurrences_cons_ne by done. simpl.
      destruct (seen !! y) as [n|]; simpl;
        rewrite (IH _ _ Hi), met_insert_ne by done; done.
Qed.

Lemma occurrences_take_lt x (old : list string) i j :
  i < j → old !! i = Some x →
  occurrences x (take i old) < occurrences x (take j old).
Proof.
  intros Hij Hi.
  assert (take j old = take i old ++ x :: take (j - S i) (drop (S i) old)) as ->.
  { rewrite <-(take_drop_middle old i x) at 1 by done.
    rewrite take_app. rewrite length_take_le by (apply lookup_lt_Some in Hi; lia).
    rewrite take_take. replace (j `min` i) with i by lia.
    f_equal. replace (j - i) with (S (j - S i)) by lia. done. }
  rewrite occurrences_app, occurrences_cons_eq. lia.
Qed.

End rename_duplicates_facts.

Lemma rename_duplicates_lookup (old : list string) i x :
  old !! i = Some x →
  rename_duplicates old !! i
  = Some (renamed x (occurrences x (take i old))).
Proof.
  intros Hi. unfold rename_duplicates.
  by rewrite (rename_duplicates_from_lookup _ _ _ _ Hi).
Qed.

(** C4: [rename_duplicates] keeps the length and the order of its input:
    position [i] of the output is the name at position [i] of the input,
    unchanged when it is the first occurrence of that name, and with [_k]
    appended when it is occurrence number [k+1]; so later repeats of a name
    carry strictly larger numbers. *)
Theorem rename_duplicates_spec (old : list string) :
  length (rename_duplicates old) = length old ∧
  (∀ i x, old !! i = Some x →
     rename_duplicates old !! i
     = Some (renamed x (occurrences x (take i old)))) ∧
  (∀ i x, old !! i = Some x → occurrences x (take i old) = 0 →
     rename_duplicates old !! i = Some x) ∧
  (∀ i x k, old !! i = Some x → occurrences x (take i old) = k → 1 ≤ k →
     rename_duplicates old !! i = Some (x +:+ "_" +:+ pretty k)) ∧
  (∀ i j x, i < j → old !! i = Some x → old !! j = Some x →
     ∃ ki kj,
       rename_duplicates old !! i = Some (renamed x ki) ∧
       rename_duplicates old !! j = Some (renamed x kj) ∧ ki < kj).
Proof.
  assert (Hat : ∀ i x, old !! i = Some x →
     rename_duplicates old !! i = Some (renamed x (occurrences x (take i old)))).
  { intros i x. apply rename_duplicates_lookup. }
  split; [apply rename_duplicates_from_length|].
  split; [exact Hat|].
  split; [|split].
  - intros i x Hi Hk. rewrite (Hat _ _ Hi), Hk. done.
  - intros i x k Hi Hk Hpos. rewrite (Hat _ _ Hi), Hk.
    destruct k; [lia|done].
  - intros i j x Hij Hi Hj. eexists _, _.
    split; [exact (Hat _ _ Hi)|]. split; [exact (Hat _ _ Hj)|].
    by apply occurrences_take_lt.
Qed.

Example rename_duplicates_ex :
  rename_duplicates ["a"; "b"; "a"; "c"; "a"; "b"]
  = ["a"; "b"; "a_1"; "c"; "a_2"; "b_1"].
Proof. vm_compute. reflexivity. Qed.

(** *** When the renamed names are distinct *)

Lemma occurs_in_app c s t :
  occurs_in c (s +:+ t) ↔ occurs_in c s ∨ occurs_in c t.
Proof.
  induction s as [|c' s IH]; [simpl; tauto|].
  change (String c' s +:+ t) with (String c' (s +:+ t)). simpl.
  rewrite IH. tauto.
Qed.

Lemma pretty_N_go_no_underscore x s :
  ¬ occurs_in "_" s → ¬ occurs_in "_" (pretty_N_go x s).
Proof.
  revert s. induction (N.lt_wf_0 x) as [x _ IH]; intros s Hs.
  assert (x = 0 ∨ 0 < x)%N as [->|Hx] by lia; [by rewrite pretty_N_go_0|].
  rewrite pretty_N_go_step by done. apply IH; [by apply N.div_lt|].
  simpl. intros [Hc|Hin]; [|done].
  revert Hc. unfold pretty_N_char. by repeat case_match.
Qed.

Lemma pretty_nat_no_underscore (n : nat) : ¬ occurs_in "_" (pretty n).
Proof.
  unfold pretty, pretty_nat, pretty, pretty_N. case_decide.
  - simpl. intros [?|[]]. done.
  - apply pretty_N_go_no_underscore. simpl. tauto.
Qed.

(** A name and a number are read back from ["%s_%d" % (x, n)]: the last
    underscore is the one of the format. *)
Lemma underscore_split s1 d1 s2 d2 :
  ¬ occurs_in "_" d1 → ¬ occurs_in "_" d2 →
  s1 +:+ "_" +:+ d1 = s2 +:+ "_" +:+ d2 → s1 = s2 ∧ d1 = d2.
Proof.
  intros H1 H2. revert s2.
  induction s1 as [|c s1 IH]; intros [|c' s2] Heq.
  - change (String "_" d1 = String "_" d2) in Heq. by injection Heq.
  - change (String "_" d1 = String c' (s2 +:+ "_" +:+ d2)) in Heq.
    injection Heq as _ Heq. destruct H1. rewrite Heq.
    apply occurs_in_app. right. by left.
  - change (String c (s1 +:+ "_" +:+ d1) = String "_" d2) in Heq.
    injection Heq as _ Heq. destruct H2. rewrite <-Heq.
    apply occurs_in_app. right. by left.
  - change (String c (s1 +:+ "_" +:+ d1) = String c' (s2 +:+ "_" +:+ d2))
      in Heq.
    injection Heq as -> Heq. destruct (IH _ Heq) as [-> ->]. done.
Qed.

Lemma fmt_s_d_inj x1 n1 x2 n2 :
  fmt_s_d x1 n1 = fmt_s_d x2 n2 → x1 = x2 ∧ n1 = n2.
Proof.
  unfold fmt_s_d. intros Heq.
  apply underscore_split in Heq as [-> Hn];
    [|apply pretty_nat_no_underscore..].
  split; [done|]. by apply (inj pretty).
Qed.

Lemma rename_duplicates_distinct_at (old : list string) i j v :
  (∀ x y k, x ∈ old → y ∈ old → 1 ≤ k → x ≠ fmt_s_d y k) →
  i < j →
  rename_duplicates old !! i = Some v → rename_duplicates old !! j = Some v →
  False.
Proof.
  intros Hfree Hij Hi Hj.
  assert (is_Some (old !! i)) as [x Hx].
  { apply lookup_lt_is_Some. apply lookup_lt_Some in Hi.
    unfold rename_duplicates in Hi.
    by rewrite rename_duplicates_from_length in Hi. }
  assert (is_Some (old !! j)) as [y Hy].
  { apply lookup_lt_is_Some. apply lookup_lt_Some in Hj.
    unfold rename_duplicates in Hj.
    by rewrite rename_duplicates_from_length in Hj. }
  rewrite (rename_duplicates_lookup _ _ _ Hx) in Hi.
  rewrite (rename_duplicates_lookup _ _ _ Hy) in Hj.
  injection Hi as Hi. injection Hj as Hj. subst v.
  assert (Hxin : x ∈ old) by (by eapply list_elem_of_lookup_2).
  assert (Hyin : y ∈ old) by (by eapply list_elem_of_lookup_2).
  destruct (occurrences x (take i old)) as [|ki] eqn:Hki;
    destruct (occurrences y (take j old)) as [|kj] eqn:Hkj; simpl in Hj.
  - subst y. pose proof (occurrences_take_lt x old i j Hij Hx). lia.
  - by apply (Hfree x y (S kj) Hxin Hyin); [lia|].
  - by apply (Hfree y x (S ki) Hyin Hxin); [lia|].
  - apply fmt_s_d_inj in Hj as [-> Hk].
    pose proof (occurrences_take_lt x old i j Hij Hx). lia.
Qed.

(** When no name of the input is another name of the input followed by
    an underscore and a number from one on, the names that
    [rename_duplicates] yields are pairwise distinct. *)
Theorem rename_duplicates_NoDup (old : list string) :
  (∀ x y k, x ∈ old → y ∈ old → 1 ≤ k → x ≠ fmt_s_d y k) →
  NoDup (rename_duplicates old).
Proof.
  intros Hfree. apply NoDup_alt. intros i j v Hi Hj.
  destruct (Nat.lt_trichotomy i j) as [Hlt|[->|Hlt]]; [|done|];
    by destruct (rename_duplicates_distinct_at old _ _ v Hfree Hlt).
Qed.

Lemma rename_duplicates_NoDup_witness :
  (∀ x y k, x ∈ ["a"; "b"; "a"] → y ∈ ["a"; "b"; "a"] → 1 ≤ k →
            x ≠ fmt_s_d y k) ∧
  NoDup (rename_duplicates ["a"; "b"; "a"]).
Proof.
  assert (H : ∀ x y k, x ∈ ["a"; "b"; "a"] → y ∈ ["a"; "b"; "a"] → 1 ≤ k →
                       x ≠ fmt_s_d y k).
  { intros x y k Hx Hy _.
    repeat (apply elem_of_cons in Hx as [->|Hx]);
      try (by apply elem_of_nil in Hx);
      repeat (apply elem_of_cons in Hy as [->|Hy]);
      try (by apply elem_of_nil in Hy); discriminate. }
  split; [exact H|]. exact (rename_duplicates_NoDup ["a"; "b"; "a"] H).
Defined.

(** *** Names that are already distinct *)

Lemma string_length_app s t :
  String.length (s +:+ t) = String.length s + String.length t.
Proof.
  induction s as [|c s IH]; [done|].
  change (String c s +:+ t) with (String c (s +:+ t)). simpl. by rewrite IH.
Qed.

Lemma fmt_s_d_ne x k : fmt_s_d x k ≠ x.
Proof.
  unfold fmt_s_d. intros Heq. apply (f_equal String.length) in Heq.
  rewrite !string_length_app in Heq. simpl in Heq. lia.
Qed.

Lemma occurrences_0 x l : x ∉ l → occurrences x l = 0.
Proof.
  induction l as [|y l IH]; [done|]. intros Hx.
  apply not_elem_of_cons in Hx as [Hne Hx].
  rewrite occurrences_cons_ne by done. by apply IH.
Qed.

Lemma occurrences_pos x l : x ∈ l → 0 < occurrences x l.
Proof.
  induction l as [|y l IH]; intros Hx; [by apply elem_of_nil in Hx|].
  destruct (decide (y = x)) as [->|Hne].
  - rewrite occurrences_cons_eq. lia.
  - rewrite occurrences_cons_ne by done.
    apply elem_of_cons in Hx as [->|Hx]; [done|]. by apply IH.
Qed.

(** [rename_duplicates] returns its input as it is exactly when the
    names of the input are pairwise distinct: it changes no name of such a
    list, and it changes every repeated occurrence of a name. *)
Theorem rename_duplicates_fixes_distinct (old : list string) :
  rename_duplicates old = old ↔ NoDup old.
Proof.
  split.
  - intros Heq. apply NoDup_alt. intros i j x Hi Hj.
    destruct (Nat.lt_trichotomy i j) as [Hlt|[->|Hlt]]; [|done|]; exfalso.
    + pose proof (rename_duplicates_lookup old j x Hj) as Hout.
      rewrite Heq, Hj in Hout. injection Hout as Hout.
      assert (0 < occurrences x (take j old)) as Hpos.
      { apply occurrences_pos, list_elem_of_lookup. exists i.
        by rewrite lookup_take_lt. }
      destruct (occurrences x (take j old)) as [|k]; [lia|].
      simpl in Hout. by destruct (fmt_s_d_ne x (S k)).
    + pose proof (rename_duplicates_lookup old i x Hi) as Hout.
      rewrite Heq, Hi in Hout. injection Hout as Hout.
      assert (0 < occurrences x (take i old)) as Hpos.
      { apply occurrences_pos, list_elem_of_lookup. exists j.
        by rewrite lookup_take_lt. }
      destruct (occurrences x (take i old)) as [|k]; [lia|].
      simpl in Hout. by destruct (fmt_s_d_ne x (S k)).
  - intros Hnd. apply list_eq. intros i.
    destruct (old !! i) as [x|] eqn:Hi.
    + rewrite (rename_duplicates_lookup old i x Hi).
      rewrite occurrences_0; [done|].
      intros (j & Hj)%list_elem_of_lookup.
      apply lookup_take_Some in Hj as [Hj Hlt].
      pose proof (NoDup_lookup _ _ _ _ Hnd Hi Hj). lia.
    + apply lookup_ge_None. apply lookup_ge_None in Hi.
      unfold rename_duplicates. by rewrite rename_duplicates_from_length.
Qed.

(** ** Running a statement *)

Section running.

Context {A B : Type}.

Lemma bind_Return (c : M A) (k : A → M B) s a s' :
  c s = (Return a, s') → (c ≫= k) s = k a s'.
Proof. intros H. unfold mbind, M_bind. by rewrite H. Qed.

Lemma bind_Raise (c : M A) (k : A → M B) s e s' :
  c s = (Raise e, s') → (c ≫= k) s = (Raise e, s').
Proof. intros H. unfold mbind, M_bind. by rewrite H. Qed.

Lemma attr_Return (r : ref) (f : Model → A) s m :
  heap s !! r = Some m → attr r f s = (Return (f m), s).
Proof. intros H. unfold attr. by rewrite H. Qed.

End running.

(** ** The footprint of a statement *)

Section footprint.

Context {A B : Type} (P : Event → Prop).

Lemma reads_quiet (c : M A) : reads c → quiet P c.
Proof.
  intros Hc s. rewrite (Hc s). split; [done|].
  exists []. by rewrite app_nil_r.
Qed.

Lemma reads_ret (a : A) : reads (mret a).
Proof. by intros s. Qed.

Lemma reads_raise (e : Exn) : reads (@raise A e).
Proof. by intros s. Qed.

Lemma reads_bind (c : M A) (k : A → M B) :
  reads c → (∀ a, reads (k a)) → reads (c ≫= k).
Proof.
  intros Hc Hk s. unfold mbind, M_bind. specialize (Hc s).
  destruct (c s) as [[a|e|] s1]; simpl in *; subst; [apply Hk|done..].
Qed.

Lemma reads_attr (r : ref) (f : Model → A) : reads (attr r f).
Proof. intros s. unfold attr. by destruct (heap s !! r). Qed.

Lemma reads_local (var : string) (v : option A) : reads (local var v).
Proof. by destruct v. Qed.

Lemma reads_subscript (l : list A) (i : nat) : reads (subscript l i).
Proof. unfold subscript. by destruct (l !! i). Qed.

Lemma quiet_ret (a : A) : quiet P (mret a).
Proof. apply reads_quiet, reads_ret. Qed.

Lemma quiet_raise (e : Exn) : quiet P (@raise A e).
Proof. apply reads_quiet, reads_raise. Qed.

Lemma quiet_bind (c : M A) (k : A → M B) :
  quiet P c → (∀ a, quiet P (k a)) → quiet P (c ≫= k).
Proof.
  intros Hc Hk s. unfold mbind, M_bind.
  destruct (Hc s) as [Hh (evs & Ht & HP)].
  destruct (c s) as [[a|e|] s1]; simpl in *; [|eauto..].
  destruct (Hk a s1) as [Hh' (evs' & Ht' & HP')].
  split; [congruence|].
  exists (evs ++ evs'). rewrite Ht', Ht, app_assoc.
  split; [done|]. by apply Forall_app.
Qed.

Lemma quiet_try (body : M A) (handler : Exn → option (M A)) :
  quiet P body →
  (∀ e, match handler e with Some h => quiet P h | None => True end) →
  quiet P (try_except body handler).
Proof.
  intros Hc Hh s. unfold try_except.
  destruct (Hc s) as [Hhp (evs & Ht & HP)].
  destruct (body s) as [[a|e|] s1]; simpl in *; [eauto| |eauto].
  specialize (Hh e). destruct (handler e) as [h|]; simpl; [|eauto].
  destruct (Hh s1) as [Hh' (evs' & Ht' & HP')].
  split; [congruence|].
  exists (evs ++ evs'). rewrite Ht', Ht, app_assoc.
  split; [done|]. by apply Forall_app.
Qed.

Lemma quiet_weaken (Q : Event → Prop) (c : M A) :
  (∀ e, Q e → P e) → quiet Q c → quiet P c.
Proof.
  intros HQ Hc s. destruct (Hc s) as [Hh (evs & Ht & HP)].
  split; [done|]. exists evs. split; [done|].
  eapply Forall_impl; eauto.
Qed.

End footprint.

Lemma quiet_emit (P : Event → Prop) (e : Event) : P e → quiet P (emit e).
Proof.
  intros He s. simpl. split; [done|]. exists [e]. split; [done|].
  by apply Forall_singleton.
Qed.

Lemma reads_str_add s v : reads (str_add s v).
Proof. by destruct v. Qed.

Lemma reads_get_path w package_name : reads (get_path w package_name).
Proof. unfold get_path. by destruct (pkg_path w package_name). Qed.

Lemma reads_open_read w path : reads (open_read w path).
Proof. unfold open_read. by destruct (text_file w path). Qed.

Lemma reads_dict_get m key : reads (dict_get m key).
Proof.
  induction m as [|[k v] m IH]; simpl; [done|]. by destruct (decide (k = key)).
Qed.

Lemma quiet_wait_for_service (P : Event → Prop) w service timeout :
  P (WaitForService service timeout) →
  quiet P (wait_for_service w service timeout).
Proof.
  intros HP. unfold wait_for_service.
  apply quiet_bind; [by apply quiet_emit|intros _].
  destruct (service_up w service); [apply quiet_ret|].
  destruct timeout; [apply quiet_raise|].
  apply reads_quiet. by intros s.
Qed.

Lemma quiet_call (P : Event → Prop) w service req :
  P (ServiceCall service req) → quiet P (call w service req).
Proof.
  intros HP. unfold call.
  apply quiet_bind; [by apply quiet_emit|intros _].
  destruct (service_reply w service req); [apply quiet_ret|apply quiet_raise].
Qed.

(** One step of a footprint proof, by the shape of the statement. *)
Ltac quiet_step :=
  lazymatch goal with
  | |- reads (mret _) => apply reads_ret
  | |- reads (raise _) => apply reads_raise
  | |- reads (_ ≫= _) => apply reads_bind; [|intros]
  | |- reads (attr _ _) => apply reads_attr
  | |- reads (local _ _) => apply reads_local
  | |- reads (subscript _ _) => apply reads_subscript
  | |- reads (if ?b then _ else _) => destruct b
  | |- reads (match ?x with _ => _ end) => destruct x
  | |- quiet _ (mret _) => apply quiet_ret
  | |- quiet _ (raise _) => apply quiet_raise
  | |- quiet _ (_ ≫= _) => apply quiet_bind; [|intros]
  | |- quiet _ (try_except _ _) => apply quiet_try; [|intros []; simpl; try exact I]
  | |- quiet _ (attr _ _) => apply reads_quiet, reads_attr
  | |- quiet _ (local _ _) => apply reads_quiet, reads_local
  | |- quiet _ (subscript _ _) => apply reads_quiet, reads_subscript
  | |- quiet _ (str_add _ _) => apply reads_quiet, reads_str_add
  | |- quiet _ (get_path _ _) => apply reads_quiet, reads_get_path
  | |- quiet _ (open_read _ _) => apply reads_quiet, reads_open_read
  | |- quiet _ (dict_get _ _) => apply reads_quiet, reads_dict_get
  | |- quiet _ (emit _) => apply quiet_emit
  | |- quiet _ (log _ _) => apply quiet_emit
  | |- quiet _ (print _) => apply quiet_emit
  | |- quiet _ (sleep _) => apply quiet_emit
  | |- quiet _ (wait_for_service _ _ _) => apply quiet_wait_for_service
  | |- quiet _ (call _ _ _) => apply quiet_call
  | |- quiet _ (if ?b then _ else _) => destruct b
  | |- quiet _ (match ?x with _ => _ end) => destruct x
  end.

Section spawn_model_footprint.

Variable w : World.

Lemma reads_pose_at r i : reads (pose_at r i).
Proof. unfold pose_at. repeat quiet_step. Qed.

Lemma reads_pose_from r i : reads (pose_from r i).
Proof. unfold pose_from. repeat quiet_step. Qed.

Lemma reads_orientation r : reads (orientation w r).
Proof.
  unfold orientation. quiet_step; [quiet_step|].
  destruct a; [apply reads_pose_from|].
  repeat (apply reads_bind; [first [apply reads_pose_at|apply reads_attr]|intros]).
  destruct (to_radians _ _ _ _) as [[??]?].
  destruct (quat_of_euler _ _ _ _) as [[[??]?]?]. apply reads_ret.
Qed.

Lemma reads_make_pose r : reads (make_pose w r).
Proof.
  unfold make_pose.
  repeat (apply reads_bind;
          [first [apply reads_pose_at|apply reads_orientation
                 |apply reads_subscript]|intros]).
  apply reads_ret.
Qed.

(** Every statement of [spawn_model] that is not the call of the
    service is free of calls; none assigns to an object. *)
Lemma quiet_sdf_find_package P r package_name :
  (∀ l msg, P (Log l msg)) → quiet P (sdf_find_package w r package_name).
Proof. intros HP. unfold sdf_find_package. repeat quiet_step; apply HP. Qed.

Lemma quiet_sdf_read_model P r package_name model_path model_xml :
  (∀ l msg, P (Log l msg)) →
  quiet P (sdf_read_model w r package_name model_path model_xml).
Proof. intros HP. unfold sdf_read_model. repeat quiet_step; apply HP. Qed.

Lemma quiet_service_call_failed P e :
  (∀ l msg, P (Log l msg)) →
  match service_call_failed e with Some h => quiet P h | None => True end.
Proof. intros HP. destruct e; simpl; try exact I; repeat quiet_step; apply HP. Qed.

Lemma quiet_sdf_wait P :
  (∀ l msg, P (Log l msg)) → (∀ srv t, P (WaitForService srv t)) →
  quiet P (sdf_wait w).
Proof.
  intros HL HW. unfold sdf_wait.
  apply quiet_try; [|intros e; by apply quiet_service_call_failed].
  repeat quiet_step; auto.
Qed.

Lemma quiet_urdf_read_model P r package_name :
  (∀ l msg, P (Log l msg)) → quiet P (urdf_read_model w r package_name).
Proof.
  intros HP. unfold urdf_read_model, path_add. repeat quiet_step; apply HP.
Qed.

Lemma quiet_urdf_wait P :
  (∀ l msg, P (Log l msg)) → (∀ srv t, P (WaitForService srv t)) →
  quiet P (urdf_wait w).
Proof.
  intros HL HW. unfold urdf_wait.
  apply quiet_try; [|intros e; by apply quiet_service_call_failed].
  repeat quiet_step; auto.
Qed.

Lemma quiet_call_spawn P r package_name model_xml prox spawn_pose :
  (∀ l msg, P (Log l msg)) → (∀ msg, P (Printed msg)) →
  (∀ srv req, P (ServiceCall srv req)) →
  quiet P (call_spawn w r package_name model_xml prox spawn_pose).
Proof.
  intros HL HP HC. unfold call_spawn. repeat quiet_step; auto.
Qed.

(** The events of a call of [spawn_model]: the one of its entry, then
    events of the statements of its body. *)
Lemma spawn_model_events P r s :
  (∀ l msg, P (Log l msg)) → (∀ msg, P (Printed msg)) →
  (∀ srv t, P (WaitForService srv t)) → (∀ srv req, P (ServiceCall srv req)) →
  ∃ evs, (spawn_model w r s).2 = after s (Called r :: evs) ∧ Forall P evs.
Proof.
  intros HL HP HW HC. unfold spawn_model.
  rewrite (bind_Return _ _ s () (after s [Called r])) by done.
  lazymatch goal with
  | |- ∃ evs, (?c _).2 = _ ∧ _ => assert (Hq : quiet P c)
  end.
  { apply quiet_bind; [apply reads_quiet, reads_attr|intros package_name].
    apply quiet_bind; [apply reads_quiet, reads_make_pose|intros spawn_pose].
    apply quiet_bind; [apply reads_quiet, reads_attr|intros ty].
    destruct (decide (ty = "sdf")).
    { apply quiet_bind; [by apply quiet_sdf_find_package|intros [mp mx]].
      apply quiet_bind; [by apply quiet_sdf_read_model|intros mx'].
      apply quiet_bind; [by apply quiet_sdf_wait|intros prox].
      by apply quiet_call_spawn. }
    apply quiet_bind; [apply reads_quiet, reads_attr|intros ty'].
    destruct (decide (ty' = "urdf")).
    { apply quiet_bind; [by apply quiet_urdf_read_model|intros mx].
      apply quiet_bind; [by apply quiet_urdf_wait|intros prox].
      by apply quiet_call_spawn. }
    apply quiet_bind; [apply reads_quiet, reads_attr|intros ty''].
    apply quiet_bind; [apply quiet_emit, HL|intros _].
    by apply quiet_call_spawn. }
  destruct (Hq (after s [Called r])) as [Hh (evs & Ht & Hevs)].
  exists evs. split; [|done].
  destruct (_.2) as [h t]. simpl in *. subst. unfold after. simpl.
  by rewrite <-app_assoc.
Qed.

End spawn_model_footprint.

(** C10: [spawn_model] assigns to no field of the model object it is
    given (nor of any other object): whatever the outside does and however
    the call ends, the heap after the call is the heap before it, so the
    object keeps its name, type, base_path, unique_name, package,
    quaternion, radians, pose and scale. *)
Theorem spawn_model_keeps_model (w : World) (model_object : ref) (s : State) :
  heap (spawn_model w model_object s).2 = heap s ∧
  (spawn_model w model_object s).2.(heap) !! model_object = heap s !! model_object.
Proof.
  destruct (spawn_model_events w (λ _, True) model_object s) as (evs & H & _);
    [done..|].
  rewrite H. done.
Qed.

(** ** Running [spawn_model] *)

Lemma make_pose_Return w r m s spawn_pose :
  heap s !! r = Some m → pose_of w m spawn_pose →
  make_pose w r s = (Return spawn_pose, s).
Proof.
  intros Hm Hp.
  unfold make_pose, orientation, pose_at, pose_from, attr, mbind, M_bind.
  destruct Hp as [x y z qx qy qz qw Hq Hl
                 |x y z roll pitch yaw a b c qx qy qz qw Hq Hl Hr Hqe].
  - repeat (first [rewrite Hm|rewrite Hl|rewrite Hq]; simpl). done.
  - repeat (first [rewrite Hm|rewrite Hl|rewrite Hq|rewrite Hr|rewrite Hqe];
            simpl).
    done.
Qed.

Section spawn_model_runs.

Variables (w : World) (r : ref) (m : Model).

Lemma after_after s evs evs' : after (after s evs) evs' = after s (evs ++ evs').
Proof. unfold after. simpl. by rewrite app_assoc. Qed.


Lemma new_events s evs : drop (length (trace s)) (trace (after s evs)) = evs.
Proof. simpl. by rewrite drop_app_length. Qed.





Lemma sdf_wait_up s :
  service_up w "gazebo/spawn_sdf_model" = true →
  sdf_wait w s
  = (Return (Some "gazebo/spawn_sdf_model"),
     after s [Log DEBUG "Waiting for service gazebo/spawn_sdf_model";
              WaitForService "gazebo/spawn_sdf_model" (Some 5%float)]).
Proof.
  intros Hup. unfold sdf_wait, try_except, wait_for_service, log, emit.
  unfold mbind, M_bind. simpl. rewrite Hup. simpl.
  unfold after. by rewrite <-app_assoc.
Qed.



End spawn_model_runs.



(** ** The pose that is sent *)

(** For a model whose orientation is given by three angles, the pose
    message holds the first three numbers of [pose] as position and, as
    orientation, what [quaternion_from_euler] returns for the angles: each
    multiplied by [pi / 180] when the flag [radians] is off, and as they
    are when it is on. *)
Theorem make_pose_of_euler_angles (w : World) (r : ref) (m : Model)
  (s : State) (x y z roll pitch yaw : float) :
  heap s !! r = Some m →
  quaternion m = false →
  pose m = Some [x; y; z; roll; pitch; yaw] →
  make_pose w r s
  = (Return
       (let degrees2rad := (pi / 180)%float in
        let '(qx, qy, qz, qw) :=
          if radians m then quat_of_euler w roll pitch yaw
          else quat_of_euler w (roll * degrees2rad) (pitch * degrees2rad)
                 (yaw * degrees2rad) in
        mkPose x y z qx qy qz qw), s).
Proof.
  intros Hm Hq Hl. apply (make_pose_Return w r m); [done|].
  destruct (radians m) eqn:Hrad; simpl.
  - destruct (quat_of_euler w roll pitch yaw) as [[[qx qy] qz] qw] eqn:Hqe.
    eapply pose_of_euler; [done..| |exact Hqe]. by rewrite Hrad.
  - destruct (quat_of_euler w _ _ _) as [[[qx qy] qz] qw] eqn:Hqe.
    eapply pose_of_euler; [done..| |exact Hqe]. by rewrite Hrad.
Qed.

Lemma make_pose_of_euler_angles_witness :
  let m := mkModel "table" "sdf" "models" (Some "table") "pkg" false false
             (Some [1; 2; 3; 90; 180; 45]%float) None in
  let w := mkWorld (λ _, None) (λ _, None) (λ _, None) (λ _, true)
             (λ _ _, None) (λ a b c, (a, b, c, 1%float)) (λ l, l)
             (λ p, p) (λ f, f) (λ _, "") (λ _, "") in
  heap (mkState [m] []) !! 0 = Some m ∧ quaternion m = false ∧
  make_pose w 0 (mkState [m] [])
  = (Return (mkPose 1 2 3 0x1.921fb54442d18p+0 0x1.921fb54442d18p+1
               0x1.921fb54442d18p-1 1), mkState [m] []).
Proof.
  split; [reflexivity|]. split; [reflexivity|].
  exact (make_pose_of_euler_angles
           (mkWorld (λ _, None) (λ _, None) (λ _, None) (λ _, true)
              (λ _ _, None) (λ a b c, (a, b, c, 1%float)) (λ l, l)
             (λ p, p) (λ f, f) (λ _, "") (λ _, ""))
           0
           (mkModel "table" "sdf" "models" (Some "table") "pkg" false false
              (Some [1; 2; 3; 90; 180; 45]%float) None)
           (mkState
              [mkModel "table" "sdf" "models" (Some "table") "pkg" false false
                 (Some [1; 2; 3; 90; 180; 45]%float) None] [])
           1 2 3 90 180 45 eq_refl eq_refl eq_refl).
Defined.

(** ** What the branch for [urdf] does *)

(** The first [try] of the branch raises in every world and state: the
    package is missing, or the sum of a path and a string fails. Neither
    exception is one of those its [except] clauses name. *)
Lemma urdf_read_model_raises w r package_name s :
  ∃ e, urdf_read_model w r package_name s = (Raise e, s) ∧
       (e = ResourceNotFound (not_found w package_name) ∨
        ∃ msg, e = TypeError msg).
Proof.
  unfold urdf_read_model, try_except, get_path, path_add, attr, mbind, M_bind.
  destruct (pkg_path w package_name) as [p|]; simpl; [|eauto].
  destruct (heap s !! r) as [m|]; simpl; eauto.
Qed.

Section ending.

Context {A B : Type}.

Lemma ends_ret (a : A) : ends (mret a).
Proof. by intros s. Qed.

Lemma ends_raise (e : Exn) : ends (@raise A e).
Proof. by intros s. Qed.

Lemma ends_bind (c : M A) (k : A → M B) :
  ends c → (∀ a, ends (k a)) → ends (c ≫= k).
Proof.
  intros Hc Hk s. unfold mbind, M_bind. specialize (Hc s).
  destruct (c s) as [[a|e|] s1]; simpl in *; [apply Hk|done..].
Qed.

Lemma ends_try (body : M A) (handler : Exn → option (M A)) :
  ends body →
  (∀ e, match handler e with Some h => ends h | None => True end) →
  ends (try_except body handler).
Proof.
  intros Hc Hh s. unfold try_except. specialize (Hc s).
  destruct (body s) as [[a|e|] s1]; simpl in *; [done| |done].
  specialize (Hh e). destruct (handler e) as [h|]; [apply Hh|done].
Qed.

Lemma ends_attr (r : ref) (f : Model → A) : ends (attr r f).
Proof. intros s. unfold attr. by destruct (heap s !! r). Qed.

Lemma ends_local (var : string) (v : option A) : ends (local var v).
Proof. by destruct v. Qed.

Lemma ends_subscript (l : list A) (i : nat) : ends (subscript l i).
Proof. unfold subscript. by destruct (l !! i). Qed.

End ending.

Lemma ends_emit e : ends (emit e).
Proof. by intros s. Qed.

Lemma ends_str_add s v : ends (str_add s v).
Proof. by destruct v. Qed.

Lemma ends_get_path w package_name : ends (get_path w package_name).
Proof. unfold get_path. by destruct (pkg_path w package_name). Qed.

Lemma ends_open_read w path : ends (open_read w path).
Proof. unfold open_read. by destruct (text_file w path). Qed.

Lemma ends_call w service req : ends (call w service req).
Proof.
  unfold call. apply ends_bind; [apply ends_emit|intros _].
  destruct (service_reply w service req); [apply ends_ret|apply ends_raise].
Qed.

(** A wait with a timeout ends. *)
Lemma ends_wait_for_service w service t :
  ends (wait_for_service w service (Some t)).
Proof.
  unfold wait_for_service. apply ends_bind; [apply ends_emit|intros _].
  destruct (service_up w service); [apply ends_ret|apply ends_raise].
Qed.

Ltac ends_step :=
  lazymatch goal with
  | |- ends (mret _) => apply ends_ret
  | |- ends (raise _) => apply ends_raise
  | |- ends (_ ≫= _) => apply ends_bind; [|intros]
  | |- ends (try_except _ _) => apply ends_try; [|intros []; simpl; try exact I]
  | |- ends (attr _ _) => apply ends_attr
  | |- ends (local _ _) => apply ends_local
  | |- ends (subscript _ _) => apply ends_subscript
  | |- ends (str_add _ _) => apply ends_str_add
  | |- ends (get_path _ _) => apply ends_get_path
  | |- ends (open_read _ _) => apply ends_open_read
  | |- ends (emit _) => apply ends_emit
  | |- ends (log _ _) => apply ends_emit
  | |- ends (print _) => apply ends_emit
  | |- ends (call _ _ _) => apply ends_call
  | |- ends (wait_for_service _ _ (Some _)) => apply ends_wait_for_service
  | |- ends (if ?b then _ else _) => destruct b
  | |- ends (match ?x with _ => _ end) => destruct x
  end.

Section spawn_model_ends.

Variable w : World.

Lemma ends_make_pose r : ends (make_pose w r).
Proof.
  unfold make_pose, orientation, pose_at, pose_from.
  repeat ends_step.
Qed.

Lemma ends_call_spawn r package_name model_xml prox spawn_pose :
  ends (call_spawn w r package_name model_xml prox spawn_pose).
Proof. unfold call_spawn. repeat ends_step. Qed.

Lemma ends_sdf_branch r package_name spawn_pose :
  ends ('(model_path, model_xml) ← sdf_find_package w r package_name;
        model_xml ← sdf_read_model w r package_name model_path model_xml;
        spawn_model_prox ← sdf_wait w;
        call_spawn w r package_name model_xml spawn_model_prox spawn_pose).
Proof.
  apply ends_bind; [unfold sdf_find_package; repeat ends_step|intros [mp mx]].
  apply ends_bind; [unfold sdf_read_model; repeat ends_step|intros mx'].
  apply ends_bind; [|intros; apply ends_call_spawn].
  unfold sdf_wait, service_call_failed. repeat ends_step.
Qed.

(** The branch for [urdf] ends, because it raises before its wait. *)
Lemma ends_urdf_branch r package_name spawn_pose :
  ends (model_xml ← urdf_read_model w r package_name;
        spawn_model_prox ← urdf_wait w;
        call_spawn w r package_name model_xml spawn_model_prox spawn_pose).
Proof.
  intros s. destruct (urdf_read_model_raises w r package_name s) as (e & He & _).
  by rewrite (bind_Raise _ _ _ _ _ He).
Qed.

End spawn_model_ends.

(** Every call of [spawn_model] ends, by a return or by an exception: of
    its two waits, the one with a timeout ends, and the one without is
    never reached. *)
Theorem spawn_model_ends (w : World) (model_object : ref) (s : State) :
  (spawn_model w model_object s).1 ≠ Blocked.
Proof.
  revert s. change (ends (spawn_model w model_object)). unfold spawn_model.
  apply ends_bind; [apply ends_emit|intros _].
  apply ends_bind; [apply ends_attr|intros package_name].
  apply ends_bind; [apply ends_make_pose|intros spawn_pose].
  apply ends_bind; [apply ends_attr|intros ty].
  destruct (decide (ty = "sdf")); [apply ends_sdf_branch|].
  apply ends_bind; [apply ends_attr|intros ty'].
  destruct (decide (ty' = "urdf")); [apply ends_urdf_branch|].
  apply ends_bind; [apply ends_attr|intros ty''].
  apply ends_bind; [apply ends_emit|intros _].
  apply ends_call_spawn.
Qed.

(** A model of type [urdf] is never spawned: whatever the world, the
    call of [spawn_model] for it raises, and the only event it leaves is
    the one of its entry. *)
Theorem spawn_model_urdf_raises (w : World) (r : ref) (m : Model) (s : State) :
  heap s !! r = Some m → type m = "urdf" →
  ∃ e, spawn_model w r s = (Raise e, after s [Called r]).
Proof.
  intros Hm Hty.
  assert (Hm1 : heap (after s [Called r]) !! r = Some m) by done.
  unfold spawn_model.
  rewrite (bind_Return _ _ s () (after s [Called r])) by done.
  rewrite (bind_Return _ _ _ _ _ (attr_Return _ _ _ _ Hm1)).
  pose proof (reads_make_pose w r (after s [Called r])) as Hreads.
  pose proof (ends_make_pose w r (after s [Called r])) as Hends.
  destruct (make_pose w r (after s [Called r])) as [[spawn_pose|e|] s1] eqn:Hpose;
    simpl in Hreads, Hends; subst s1; [|rewrite (bind_Raise _ _ _ _ _ Hpose); eauto|done].
  rewrite (bind_Return _ _ _ _ _ Hpose).
  rewrite (bind_Return _ _ _ _ _ (attr_Return _ _ _ _ Hm1)).
  rewrite decide_False by (rewrite Hty; discriminate).
  rewrite (bind_Return _ _ _ _ _ (attr_Return _ _ _ _ Hm1)).
  rewrite decide_True by done.
  destruct (urdf_read_model_raises w r (package m) (after s [Called r]))
    as (e & He & _).
  rewrite (bind_Raise _ _ _ _ _ He). eauto.
Qed.

Lemma spawn_model_urdf_raises_witness :
  let m := model "arm" "urdf" "pkg" in
  heap (mkState [m] []) !! 0 = Some m ∧ type m = "urdf" ∧
  ∃ e, spawn_model (world [] true spawned) 0 (mkState [m] [])
       = (Raise e, after (mkState [m] []) [Called 0]).
Proof.
  split; [reflexivity|]. split; [reflexivity|].
  exact (spawn_model_urdf_raises (world [] true spawned) 0
           (model "arm" "urdf" "pkg") (mkState [model "arm" "urdf" "pkg"] [])
           eq_refl eq_refl).
Defined.

(** ** The failures that [spawn_model] handles *)

Section sdf_branch_runs.

Variables (w : World) (r : ref) (m : Model).

(** A call for a model of type [sdf] with a pose of the announced shape
    comes down to the four [try] statements of the branch. *)
Lemma spawn_model_sdf_unfold s spawn_pose :
  heap s !! r = Some m → pose_of w m spawn_pose → type m = "sdf" →
  spawn_model w r s
  = ('(model_path, model_xml) ← sdf_find_package w r (package m);
     model_xml ← sdf_read_model w r (package m) model_path model_xml;
     spawn_model_prox ← sdf_wait w;
     call_spawn w r (package m) model_xml spawn_model_prox spawn_pose)
      (after s [Called r]).
Proof.
  intros Hm Hp Hty.
  assert (Hm1 : heap (after s [Called r]) !! r = Some m) by done.
  unfold spawn_model.
  rewrite (bind_Return _ _ s () (after s [Called r])) by done.
  rewrite (bind_Return _ _ _ _ _ (attr_Return _ _ _ _ Hm1)).
  rewrite (bind_Return _ _ _ _ _ (make_pose_Return _ _ _ _ _ Hm1 Hp)).
  rewrite (bind_Return _ _ _ _ _ (attr_Return _ _ _ _ Hm1)).
  by rewrite decide_True.
Qed.

Lemma sdf_find_package_missing s :
  pkg_path w (package m) = None →
  sdf_find_package w r (package m) s
  = (Return (None, None),
     after s [Log ERROR (cannot_find_package (package m)
                           (ResourceNotFound (not_found w (package m))))]).
Proof.
  intros Hp. unfold sdf_find_package, try_except, get_path, mbind, M_bind.
  by rewrite Hp.
Qed.

Lemma sdf_read_model_unbound s :
  sdf_read_model w r (package m) None None s
  = (Return None,
     after s [Log DEBUG
                (cannot_find_package (package m)
                   (UnboundLocalError
                      "local variable 'model_path' referenced before assignment"))]).
Proof. done. Qed.

Lemma sdf_wait_down s :
  service_up w "gazebo/spawn_sdf_model" = false →
  sdf_wait w s
  = (Return None,
     after s [Log DEBUG "Waiting for service gazebo/spawn_sdf_model";
              WaitForService "gazebo/spawn_sdf_model" (Some 5%float);
              Log ERROR "Service call failed: timeout exceeded while waiting for service"]).
Proof.
  intros Hup. unfold sdf_wait, try_except, wait_for_service, log, emit.
  unfold mbind, M_bind. simpl. rewrite Hup. simpl.
  unfold log, emit, mbind, M_bind. simpl.
  unfold after. simpl. rewrite <-!app_assoc. reflexivity.
Qed.

(** Without the text of the model or without the proxy, the last [try]
    makes no call: the unassigned local is caught and logged. *)
Lemma call_spawn_no_call s model_xml prox spawn_pose :
  heap s !! r = Some m →
  model_xml = None ∨ prox = None →
  ∃ msg, call_spawn w r (package m) model_xml prox spawn_pose s
         = (Return (),
            after s [Printed ("Now spawning: " +:+ str_opt (unique_name m));
                     Log DEBUG msg]).
Proof.
  intros Hm Hnone.
  unfold call_spawn, try_except, print, log, emit, attr, mbind, M_bind.
  simpl. rewrite Hm. simpl.
  destruct prox as [p|]; simpl.
  - destruct Hnone as [->|?]; [|done]. rewrite Hm. simpl.
    eexists. unfold after. simpl. by rewrite <-app_assoc.
  - eexists. unfold after. simpl. by rewrite <-app_assoc.
Qed.



End sdf_branch_runs.

(** A missing package of a model of type [sdf] is logged as an error and
    the call returns without a spawn call, whether or not the service is
    available. *)
Theorem spawn_model_sdf_missing_package (w : World) (r : ref) (m : Model)
  (s : State) (spawn_pose : Pose) :
  heap s !! r = Some m → pose_of w m spawn_pose → type m = "sdf" →
  pkg_path w (package m) = None →
  let res := spawn_model w r s in
  let new := drop (length (trace s)) (trace res.2) in
  res.1 = Return () ∧ service_calls new = [] ∧
  Log ERROR (cannot_find_package (package m)
               (ResourceNotFound (not_found w (package m))))
  ∈ new.
Proof.
  intros Hm Hp Hty Hpkg res new. subst res new.
  assert (Hm1 : heap (after s [Called r]) !! r = Some m) by done.
  rewrite (spawn_model_sdf_unfold w r m s spawn_pose Hm Hp Hty).
  rewrite (bind_Return _ _ _ _ _ (sdf_find_package_missing w r m _ Hpkg)).
  rewrite (bind_Return _ _ _ _ _ (sdf_read_model_unbound w r m _)).
  rewrite !after_after.
  destruct (service_up w "gazebo/spawn_sdf_model") eqn:Hup.
  - rewrite (bind_Return _ _ _ _ _ (sdf_wait_up w _ Hup)). rewrite after_after.
    lazymatch goal with
    | |- context [call_spawn w r (package m) ?mx ?px spawn_pose ?st] =>
        destruct (call_spawn_no_call w r m st mx px spawn_pose Hm1
                    (or_introl eq_refl)) as (msg & Hcall)
    end.
    rewrite Hcall.
    rewrite after_after. simpl fst. simpl snd. rewrite new_events.
    split; [done|]. split; [done|]. apply elem_of_cons. right.
    apply elem_of_cons. by left.
  - rewrite (bind_Return _ _ _ _ _ (sdf_wait_down w _ Hup)). rewrite after_after.
    lazymatch goal with
    | |- context [call_spawn w r (package m) ?mx ?px spawn_pose ?st] =>
        destruct (call_spawn_no_call w r m st mx px spawn_pose Hm1
                    (or_introl eq_refl)) as (msg & Hcall)
    end.
    rewrite Hcall.
    rewrite after_after. simpl fst. simpl snd. rewrite new_events.
    split; [done|]. split; [done|]. apply elem_of_cons. right.
    apply elem_of_cons. by left.
Qed.

Lemma spawn_model_sdf_missing_package_witness :
  let w := world [] true spawned in
  let m := model "table" "sdf" "nowhere" in
  let s := mkState [m] [] in
  pkg_path w (package m) = None ∧
  (spawn_model w 0 s).1 = Return () ∧
  service_calls (trace (spawn_model w 0 s).2) = [].
Proof.
  split; [reflexivity|].
  assert (Hp : pose_of (world [] true spawned) (model "table" "sdf" "nowhere")
                 (mkPose 1 2 3 0 0 0 1)).
  { eapply pose_of_euler; reflexivity. }
  destruct (spawn_model_sdf_missing_package (world [] true spawned) 0
              (model "table" "sdf" "nowhere")
              (mkState [model "table" "sdf" "nowhere"] [])
              (mkPose 1 2 3 0 0 0 1) eq_refl Hp eq_refl eq_refl)
    as (Hret & Hcalls & _).
  split; [exact Hret|exact Hcalls].
Defined.






(** ** Poses *)

(** An orientation given as a quaternion is sent as it is: the first
    seven numbers of [pose] are the position and the orientation of the
    message, whatever the flag [radians] says and without any call of
    [quaternion_from_euler]; numbers after the seventh are ignored. *)
Theorem make_pose_of_quaternion (w : World) (r : ref) (m : Model) (s : State)
  (x y z qx qy qz qw : float) (rest : list float) :
  heap s !! r = Some m →
  quaternion m = true →
  pose m = Some (x :: y :: z :: qx :: qy :: qz :: qw :: rest) →
  make_pose w r s = (Return (mkPose x y z qx qy qz qw), s).
Proof.
  intros Hm Hq Hl.
  unfold make_pose, orientation, pose_at, pose_from, attr, mbind, M_bind.
  repeat (first [rewrite Hm|rewrite Hl|rewrite Hq]; simpl). done.
Qed.

Lemma make_pose_of_quaternion_witness :
  let m := mkModel "table" "sdf" "models" (Some "table") "pkg" true false
             (Some [1; 2; 3; 0; 0; 0; 1; 9]%float) None in
  heap (mkState [m] []) !! 0 = Some m ∧ quaternion m = true ∧
  make_pose (world [] true spawned) 0 (mkState [m] [])
  = (Return (mkPose 1 2 3 0 0 0 1), mkState [m] []).
Proof.
  split; [reflexivity|]. split; [reflexivity|].
  exact (make_pose_of_quaternion (world [] true spawned) 0
           (mkModel "table" "sdf" "models" (Some "table") "pkg" true false
              (Some [1; 2; 3; 0; 0; 0; 1; 9]%float) None)
           (mkState
              [mkModel "table" "sdf" "models" (Some "table") "pkg" true false
                 (Some [1; 2; 3; 0; 0; 0; 1; 9]%float) None] [])
           1 2 3 0 0 0 1 [9%float] eq_refl eq_refl eq_refl).
Defined.

(** The numbers that [spawn_model] reads from [pose]: seven for a
    quaternion, six for three angles. *)
Lemma make_pose_short w r m s l :
  heap s !! r = Some m → pose m = Some l →
  length l < (if quaternion m then 7 else 6) →
  make_pose w r s = (Raise (IndexError "list index out of range"), s).
Proof.
  intros Hm Hl Hlen.
  unfold make_pose, orientation, pose_at, pose_from, attr, mbind, M_bind.
  destruct (quaternion m) eqn:Hq;
    destruct l as [|x [|y [|z [|a [|b [|c [|d l]]]]]]]; simpl in Hlen;
    try lia;
    repeat (first [rewrite Hm|rewrite Hl|rewrite Hq]; simpl); done.
Qed.

(** A model without a pose, or with a pose of fewer numbers than its flag
    [quaternion] announces, makes [spawn_model] raise before it logs,
    waits or calls anything: [TypeError] for no pose, [IndexError] for a
    short one. *)
Theorem spawn_model_malformed_pose (w : World) (r : ref) (m : Model)
  (s : State) :
  heap s !! r = Some m →
  pose m = None
  ∨ (∃ l, pose m = Some l ∧ length l < (if quaternion m then 7 else 6)) →
  spawn_model w r s
  = (Raise (match pose m with
            | None => TypeError "'NoneType' object is not subscriptable"
            | Some _ => IndexError "list index out of range"
            end), after s [Called r]).
Proof.
  intros Hm Hbad.
  assert (Hm1 : heap (after s [Called r]) !! r = Some m) by done.
  unfold spawn_model.
  rewrite (bind_Return _ _ s () (after s [Called r])) by done.
  rewrite (bind_Return _ _ _ _ _ (attr_Return _ _ _ _ Hm1)).
  destruct Hbad as [Hnone|(l & Hl & Hlen)].
  - rewrite Hnone. erewrite bind_Raise; [done|].
    unfold make_pose, pose_at, attr, mbind, M_bind.
    rewrite Hm1. simpl. by rewrite Hnone.
  - rewrite Hl. erewrite bind_Raise; [done|].
    by apply (make_pose_short w r m _ l).
Qed.

Lemma spawn_model_malformed_pose_witness :
  let m := mkModel "table" "sdf" "models" (Some "table") "pkg" false false
             (Some [1; 2; 3]%float) None in
  heap (mkState [m] []) !! 0 = Some m ∧
  spawn_model (world [] true spawned) 0 (mkState [m] [])
  = (Raise (IndexError "list index out of range"), mkState [m] [Called 0]).
Proof.
  split; [reflexivity|].
  apply (spawn_model_malformed_pose (world [] true spawned) 0
           (mkModel "table" "sdf" "models" (Some "table") "pkg" false false
              (Some [1; 2; 3]%float) None)
           (mkState
              [mkModel "table" "sdf" "models" (Some "table") "pkg" false false
                 (Some [1; 2; 3]%float) None] []) eq_refl).
  right. exists [1; 2; 3]%float. split; [reflexivity|]. simpl. lia.
Defined.

(** ** The loop over the registry *)

Section emitting.

Context {A B : Type} (P : Event → Prop).

Lemma quiet_emits (c : M A) : quiet P c → emits P c.
Proof. intros Hc s. apply Hc. Qed.

Lemma reads_emits (c : M A) : reads c → emits P c.
Proof. intros Hc. by apply quiet_emits, reads_quiet. Qed.

Lemma emits_bind (c : M A) (k : A → M B) :
  emits P c → (∀ a, emits P (k a)) → emits P (c ≫= k).
Proof.
  intros Hc Hk s. unfold mbind, M_bind.
  destruct (Hc s) as (evs & Ht & HP).
  destruct (c s) as [[a|e|] s1]; simpl in *; [|eauto..].
  destruct (Hk a s1) as (evs' & Ht' & HP').
  exists (evs ++ evs'). rewrite Ht', Ht, app_assoc.
  split; [done|]. by apply Forall_app.
Qed.

Lemma bind_Return_inv (c : M A) (k : A → M B) s b s' :
  (c ≫= k) s = (Return b, s') →
  ∃ a s1, c s = (Return a, s1) ∧ k a s1 = (Return b, s').
Proof.
  unfold mbind, M_bind. destruct (c s) as [[a|e|] s1]; [eauto|done..].
Qed.

End emitting.

Lemma emits_alloc P m : emits P (alloc m).
Proof. intros s. exists []. simpl. by rewrite app_nil_r. Qed.

Lemma emits_set_unique_name P r v : emits P (set_unique_name r v).
Proof.
  intros s. exists []. unfold set_unique_name.
  destruct (heap s !! r); simpl; by rewrite app_nil_r.
Qed.

Lemma reads_strip_slash p : reads (strip_slash p).
Proof. by destruct p. Qed.

Lemma reads_open_safe_load w path : reads (open_safe_load w path).
Proof. unfold open_safe_load. by destruct (yaml_file w _). Qed.

Lemma reads_entry_key e : reads (entry_key e).
Proof. unfold entry_key. destruct (e_unique_name e), (e_name e); done. Qed.

Lemma reads_model_names models : reads (model_names models).
Proof.
  induction models as [|e rest IH]; simpl; [apply reads_ret|].
  apply reads_bind; [apply reads_entry_key|intros k].
  apply reads_bind; [apply IH|intros ks]. apply reads_ret.
Qed.

Lemma emits_fill_dict P w names list_of_dict idx d :
  emits P (fill_dict w names list_of_dict idx d).
Proof.
  revert idx d. induction names as [|nm rest IH]; intros idx d; simpl.
  { apply reads_emits, reads_ret. }
  apply emits_bind; [apply reads_emits, reads_subscript|intros args].
  apply emits_bind; [|intros obj; apply IH].
  unfold Model_init. destruct (e_others args), (e_name args), (e_type args);
    first [apply emits_alloc|apply reads_emits, reads_raise].
Qed.

Lemma emits_add_unique_names P names items count :
  emits P (add_unique_names names items count).
Proof.
  revert count. induction items as [|[k r] rest IH]; intros count; simpl.
  { apply reads_emits, reads_ret. }
  apply emits_bind; [apply reads_emits, reads_attr|intros u].
  destruct (falsy u); [|apply IH].
  apply emits_bind; [apply reads_emits, reads_subscript|intros nm].
  apply emits_bind; [apply emits_set_unique_name|intros _]. apply IH.
Qed.

(** [parse_yaml] logs, and does nothing else to the outside. *)
Lemma emits_parse_yaml w package_name yaml_relative_path :
  emits is_Log (parse_yaml w package_name yaml_relative_path).
Proof.
  unfold parse_yaml.
  apply emits_bind; [apply reads_emits, reads_get_path|intros p].
  apply emits_bind; [apply reads_emits, reads_strip_slash|intros rel].
  apply emits_bind; [apply reads_emits, reads_open_safe_load|intros models].
  apply emits_bind; [apply reads_emits, reads_model_names|intros names].
  apply emits_bind; [by apply quiet_emits, quiet_emit|intros _].
  apply emits_bind; [by apply quiet_emits, quiet_emit|intros _].
  apply emits_bind; [apply emits_fill_dict|intros d].
  apply emits_bind; [apply emits_add_unique_names|intros _].
  apply reads_emits, reads_ret.
Qed.

Lemma calls_app t1 t2 : calls (t1 ++ t2) = calls t1 ++ calls t2.
Proof. apply omap_app. Qed.

Lemma sleeps_app t1 t2 : sleeps (t1 ++ t2) = sleeps t1 ++ sleeps t2.
Proof. apply omap_app. Qed.

Lemma calls_sleeps_of_logs evs :
  Forall is_Log evs → calls evs = [] ∧ sleeps evs = [].
Proof.
  induction 1 as [|[] evs He _ [IH1 IH2]]; simpl in *; done.
Qed.

Lemma calls_sleeps_of_plain evs :
  Forall plain evs → calls evs = [] ∧ sleeps evs = [].
Proof.
  induction 1 as [|[] evs He _ [IH1 IH2]]; simpl in *; done.
Qed.

Lemma steps_app t1 t2 : steps (t1 ++ t2) = steps t1 ++ steps t2.
Proof. apply omap_app. Qed.

Lemma steps_of_logs evs : Forall is_Log evs → steps evs = [].
Proof. induction 1 as [|[] evs He _ IH]; simpl in *; done. Qed.

Lemma steps_of_plain evs : Forall plain evs → steps evs = [].
Proof. induction 1 as [|[] evs He _ IH]; simpl in *; done. Qed.

(** *** The keys of the registry are distinct *)

Lemma dict_set_keys d k v :
  (dict_set d k v).*1 = if decide (k ∈ d.*1) then d.*1 else d.*1 ++ [k].
Proof.
  induction d as [|[k' v'] d IH]; [done|]. csimpl.
  destruct (decide (k' = k)) as [->|Hne]; csimpl.
  - rewrite decide_True; [done|]. by left.
  - rewrite IH. destruct (decide (k ∈ d.*1)) as [Hin|Hin].
    + rewrite decide_True; [done|]. by right.
    + rewrite decide_False; [done|].
      intros [?|?]%elem_of_cons; congruence.
Qed.

Lemma dict_set_NoDup d k v : NoDup d.*1 → NoDup (dict_set d k v).*1.
Proof.
  intros Hd. rewrite dict_set_keys. destruct (decide (k ∈ d.*1)); [done|].
  apply NoDup_app. split; [done|]. split; [|apply NoDup_singleton].
  intros x Hx ->%list_elem_of_singleton. done.
Qed.

Lemma fill_dict_NoDup w names list_of_dict idx d s d' s' :
  NoDup d.*1 →
  fill_dict w names list_of_dict idx d s = (Return d', s') → NoDup d'.*1.
Proof.
  revert idx d s. induction names as [|nm rest IH]; intros idx d s Hd; simpl.
  { by intros [= <- _]. }
  intros (args & s1 & _ & (obj & s2 & _ & Hrest)%bind_Return_inv)%bind_Return_inv.
  eapply IH; [|exact Hrest]. by apply dict_set_NoDup.
Qed.

Lemma parse_yaml_Return w package_name yaml_relative_path s m s1 :
  parse_yaml w package_name yaml_relative_path s = (Return m, s1) →
  NoDup m.*1 ∧ calls (trace s1) = calls (trace s)
  ∧ sleeps (trace s1) = sleeps (trace s).
Proof.
  intros Hrun. split.
  - unfold parse_yaml in Hrun.
    apply bind_Return_inv in Hrun as (p & s2 & _ & Hrun).
    apply bind_Return_inv in Hrun as (rel & s3 & _ & Hrun).
    apply bind_Return_inv in Hrun as (models & s4 & _ & Hrun).
    apply bind_Return_inv in Hrun as (names & s5 & _ & Hrun).
    apply bind_Return_inv in Hrun as ([] & s6 & _ & Hrun).
    apply bind_Return_inv in Hrun as ([] & s7 & _ & Hrun).
    apply bind_Return_inv in Hrun as (d & s8 & Hfill & Hrun).
    apply bind_Return_inv in Hrun as ([] & s9 & _ & Hrun).
    injection Hrun as <- _.
    eapply fill_dict_NoDup; [|exact Hfill]. apply NoDup_nil_2.
  - destruct (emits_parse_yaml w package_name yaml_relative_path s)
      as (evs & Ht & [Hc Hs]%calls_sleeps_of_logs).
    rewrite Hrun in Ht. simpl in Ht.
    by rewrite Ht, calls_app, sleeps_app, Hc, Hs, !app_nil_r.
Qed.

Lemma dict_get_lookup d k s :
  dict_get d k s
  = match dict_lookup d k with
    | Some r => (Return r, s)
    | None => (Raise (KeyError k), s)
    end.
Proof.
  induction d as [|[k' v] d IH]; simpl; [done|].
  by destruct (decide (k' = k)).
Qed.

Lemma dict_lookup_elem_of d k v :
  NoDup d.*1 → (k, v) ∈ d → dict_lookup d k = Some v.
Proof.
  induction d as [|[k' v'] d IH]; simpl; intros Hd Hin.
  { by apply elem_of_nil in Hin. }
  apply NoDup_cons in Hd as [Hk' Hd].
  apply elem_of_cons in Hin as [[= -> ->]|Hin].
  { by rewrite decide_True. }
  rewrite decide_False; [by apply IH|].
  intros ->. apply Hk'. apply list_elem_of_fmap. by exists (k, v).
Qed.

Lemma dict_lookup_keys d :
  NoDup d.*1 → Forall2 (λ k r, dict_lookup d k = Some r) d.*1 d.*2.
Proof.
  intros Hd. apply Forall2_fmap, Forall_Forall2_diag, Forall_forall.
  intros [k v] Hin. simpl. by apply dict_lookup_elem_of.
Qed.

Section loops.

Variable w : World.

Lemma pause_runs time_interval s :
  ∃ s', pause time_interval s = (Return (), s') ∧ heap s' = heap s ∧
        calls (trace s') = calls (trace s) ∧
        sleeps (trace s') = sleeps (trace s) ++ pauses time_interval 1.
Proof.
  unfold pause, pauses, sleep, emit.
  destruct (0 <? time_interval)%float; eexists; (split; [done|]); simpl.
  - by rewrite calls_app, sleeps_app, app_nil_r.
  - by rewrite app_nil_r.
Qed.

Lemma pause_steps_run time_interval s :
  ∃ s', pause time_interval s = (Return (), s') ∧
        steps (trace s') = steps (trace s) ++ pause_steps time_interval.
Proof.
  unfold pause, pause_steps, sleep, emit.
  destruct (0 <? time_interval)%float; eexists; (split; [done|]); simpl.
  - by rewrite steps_app.
  - by rewrite app_nil_r.
Qed.

Lemma spawn_model_steps r s s' :
  spawn_model w r s = (Return (), s') →
  steps (trace s') = steps (trace s) ++ [Called r].
Proof.
  intros Hrun.
  destruct (spawn_model_events w plain r s) as (evs & Hs' & Hevs); [done..|].
  rewrite Hrun in Hs'. simpl in Hs'. subst s'.
  apply steps_of_plain in Hevs. simpl.
  rewrite steps_app. simpl. by rewrite Hevs.
Qed.

(** A loop in stored order that comes to its end has, for each key in
    turn, handed the key's model to [spawn_model] and then paused. *)
Lemma spawn_stored_steps time_interval m keys s s' :
  spawn_stored w time_interval m keys s = (Return (), s') →
  ∃ refs, Forall2 (λ k r, dict_lookup m k = Some r) keys refs ∧
          steps (trace s')
          = steps (trace s) ++ spawn_steps time_interval refs.
Proof.
  revert s. induction keys as [|key rest IH]; intros s; simpl.
  { intros [= <-]. exists []. split; [constructor|]. by rewrite app_nil_r. }
  intros (obj & s1 & Hget & Hrun)%bind_Return_inv.
  apply bind_Return_inv in Hrun as ([] & s2 & Hspawn & Hrun).
  apply bind_Return_inv in Hrun as ([] & s3 & Hpause & Hrun).
  rewrite dict_get_lookup in Hget.
  destruct (dict_lookup m key) as [r|] eqn:Hkey; [|done].
  injection Hget as <- <-.
  apply spawn_model_steps in Hspawn.
  destruct (pause_steps_run time_interval s2) as (s3' & Hp & Hs3).
  rewrite Hp in Hpause. injection Hpause as <-.
  destruct (IH _ Hrun) as (refs & Hrefs & Hs).
  exists (r :: refs). split; [by constructor|].
  rewrite Hs, Hs3, Hspawn. simpl. by rewrite <-!app_assoc.
Qed.

End loops.

(** When the flag for a random order is off and the script runs to its
    end, the keys of the registry are distinct, and what the trace shows of
    spawns and pauses is, for each model of the registry in the order in
    which the registry stores them, the entry of [spawn_model] with that
    model followed, when the time interval is positive, by one pause of
    that interval; there is no other spawn and no other pause. *)
Theorem main_in_stored_order (w : World) (p : Params) (s : State) :
  random_order p = false →
  (main w p s).1 = Return () →
  ∃ m s1,
    parse_yaml w (yaml_package_name p) (yaml_relative_path p) s = (Return m, s1) ∧
    NoDup m.*1 ∧
    steps (trace (main w p s).2)
    = steps (trace s) ++ spawn_steps (time_interval p) m.*2.
Proof.
  intros Hflag Hret.
  destruct (main w p s) as [o s'] eqn:Hmain. simpl in *. subst o.
  unfold main in Hmain. rewrite Hflag in Hmain.
  apply bind_Return_inv in Hmain as (m & s1 & Hparse & Hloop).
  destruct (parse_yaml_Return _ _ _ _ _ _ Hparse) as (Hnd & _ & _).
  destruct (emits_parse_yaml w (yaml_package_name p) (yaml_relative_path p) s)
    as (evs & Ht & Hlogs%steps_of_logs).
  rewrite Hparse in Ht. simpl in Ht.
  destruct (spawn_stored_steps _ _ _ _ _ _ Hloop) as (refs & Hrefs & Hs).
  exists m, s1. split; [done|]. split; [done|].
  assert (refs = m.*2) as ->.
  { pose proof (dict_lookup_keys m Hnd) as Hall.
    revert Hrefs Hall. generalize (m.*1) (m.*2). clear.
    intros ks rs Hrefs. revert rs.
    induction Hrefs as [|k r ks refs Hk _ IH]; intros rs Hall;
      inversion Hall; simplify_eq; [done|]. f_equal. by apply IH. }
  by rewrite Hs, Ht, steps_app, Hlogs, app_nil_r.
Qed.

Lemma main_in_stored_order_witness :
  let w := world [entry "table" "sdf" None "pkg";
                  entry "chair" "sdf" None "pkg"] true spawned in
  let p := mkParams "pkg" "/config/models.yaml" false 1 in
  random_order p = false ∧ (main w p start).1 = Return () ∧
  steps (trace (main w p start).2)
  = [Called 0; Sleep 1; Called 1; Sleep 1].
Proof.
  split; [reflexivity|]. split; [by vm_compute|].
  destruct (main_in_stored_order
              (world [entry "table" "sdf" None "pkg";
                      entry "chair" "sdf" None "pkg"] true spawned)
              (mkParams "pkg" "/config/models.yaml" false 1) start eq_refl)
    as (m & s1 & Hparse & _ & Hs); [by vm_compute|].
  rewrite Hs. vm_compute in Hparse. injection Hparse as <- _.
  vm_compute. reflexivity.
Defined.

(** ** Running [parse_yaml] *)

Lemma rename_duplicates_length old :
  length (rename_duplicates old) = length old.
Proof. apply rename_duplicates_from_length. Qed.

Lemma complete_listed e : complete e → ∃ n, listed e n.
Proof.
  intros [[n Hn] _]. unfold listed.
  destruct (e_unique_name e) as [u|]; eauto.
Qed.

Lemma Forall_complete_listed entries :
  Forall complete entries → ∃ names, Forall2 listed entries names.
Proof.
  induction 1 as [|e entries [n Hn]%complete_listed _ [names IH]].
  - exists []. constructor.
  - exists (n :: names). by constructor.
Qed.

Lemma listed_inj e n n' : listed e n → listed e n' → n = n'.
Proof. intros [?|[? ?]] [?|[? ?]]; congruence. Qed.

Lemma model_names_run entries names s :
  Forall2 listed entries names → model_names entries s = (Return names, s).
Proof.
  induction 1 as [|e n entries names He _ IH]; [done|]. simpl.
  assert (entry_key e s = (Return n, s)) as Hk.
  { unfold entry_key. by destruct He as [->|[-> ->]]. }
  by rewrite (bind_Return _ _ _ _ _ Hk), (bind_Return _ _ _ _ _ IH).
Qed.

Lemma model_names_inv entries names s s' :
  model_names entries s = (Return names, s') →
  Forall2 listed entries names ∧ s' = s.
Proof.
  revert names s s'.
  induction entries as [|e entries IH]; intros names s s'; simpl.
  { intros [= <- <-]. split; [constructor|done]. }
  intros (k & s1 & Hk & (ks & s2 & Hks & Hret)%bind_Return_inv)%bind_Return_inv.
  injection Hret as <- <-. apply IH in Hks as [Hks ->].
  assert (listed e k ∧ s1 = s) as [He ->].
  { unfold entry_key, listed in *.
    destruct (e_unique_name e) as [u|]; [injection Hk as <- <-; auto|].
    destruct (e_name e) as [n|]; [injection Hk as <- <-; auto|done]. }
  split; [by constructor|done].
Qed.

Lemma Model_init_run w e s :
  complete e →
  ∃ m, Model_init w e s
       = (Return (length (heap s)), mkState (heap s ++ [m]) (trace s)) ∧
       made_from e m ∧ unique_name m = e_unique_name e.
Proof.
  intros [[n Hn] [[t Ht] Ho]]. unfold Model_init. rewrite Ho, Hn, Ht.
  eexists. split; [reflexivity|]. unfold made_from. simpl. by rewrite Hn, Ht.
Qed.

Lemma Model_init_inv w e s r s' :
  Model_init w e s = (Return r, s') → complete e.
Proof.
  unfold Model_init, complete.
  destruct (e_others e), (e_name e), (e_type e); first [done|eauto].
Qed.

(** The loop that fills the registry makes one object for each name, of
    the entry at the name's index, and stores it under the name. *)
Lemma fill_dict_run w names entries idx d s :
  length names ≤ length entries - idx →
  Forall complete (take (length names) (drop idx entries)) →
  ∃ ms,
    fill_dict w names entries idx d s
    = (Return (dict_set_all d (zip names (seq (length (heap s)) (length names)))),
       mkState (heap s ++ ms) (trace s)) ∧
    Forall2 (λ e m, made_from e m ∧ unique_name m = e_unique_name e)
      (take (length names) (drop idx entries)) ms.
Proof.
  revert idx d s. induction names as [|nm rest IH]; intros idx d s Hlen Hc.
  { exists []. simpl. rewrite app_nil_r. destruct s. split; [done|constructor]. }
  simpl in Hlen.
  destruct (lookup_lt_is_Some_2 entries idx) as [e He]; [lia|].
  rewrite (drop_S _ _ _ He) in Hc |- *. simpl in Hc |- *.
  apply Forall_cons in Hc as [Hce Hc].
  rewrite (bind_Return _ _ s e s) by (unfold subscript; by rewrite He).
  destruct (Model_init_run w e s Hce) as (m & Hm & Hmade).
  rewrite (bind_Return _ _ _ _ _ Hm).
  destruct (IH (S idx) (dict_set d nm (length (heap s)))
              (mkState (heap s ++ [m]) (trace s))) as (ms & Hrun & Hms);
    [lia|done|].
  exists (m :: ms). split; [|by constructor].
  rewrite Hrun. simpl. rewrite length_app, Nat.add_1_r, <-app_assoc. done.
Qed.

Lemma fill_dict_inv w names entries idx d s d' s' :
  fill_dict w names entries idx d s = (Return d', s') →
  length names ≤ length entries - idx ∧
  Forall complete (take (length names) (drop idx entries)).
Proof.
  revert idx d s. induction names as [|nm rest IH]; intros idx d s; simpl.
  { intros _. split; [lia|constructor]. }
  intros (e & s1 & He & (obj & s2 & Hobj & Hrest)%bind_Return_inv)%bind_Return_inv.
  unfold subscript in He. destruct (entries !! idx) as [e'|] eqn:Hidx; [|done].
  injection He as <- <-.
  apply IH in Hrest as [Hlen Hc]. apply Model_init_inv in Hobj.
  split. { apply lookup_lt_Some in Hidx. lia. }
  rewrite (drop_S _ _ _ Hidx). simpl. by constructor.
Qed.

(** *** The registry that the assignments build *)

Lemma dict_set_fresh d k v : k ∉ d.*1 → dict_set d k v = d ++ [(k, v)].
Proof.
  induction d as [|[k' v'] d IH]; csimpl; intros Hk; [done|].
  apply not_elem_of_cons in Hk as [Hne Hk].
  rewrite decide_False by done. by rewrite IH.
Qed.

Lemma dict_set_all_fresh ks rs d :
  NoDup (d.*1 ++ ks) → length ks = length rs →
  dict_set_all d (zip ks rs) = d ++ zip ks rs.
Proof.
  unfold dict_set_all.
  revert rs d. induction ks as [|k ks IH]; intros [|r rs] d Hnd Hlen;
    simpl in *; try done; [by rewrite app_nil_r|].
  rewrite dict_set_fresh.
  - rewrite IH; [by rewrite <-app_assoc| |lia].
    by rewrite fmap_app, <-app_assoc.
  - apply NoDup_app in Hnd as (_ & Hnd & _). intros Hk.
    apply (Hnd k Hk). by left.
Qed.

Lemma dict_set_Forall (P : string * ref → Prop) d k v :
  Forall P d → P (k, v) → Forall P (dict_set d k v).
Proof.
  intros Hd Hkv. induction Hd as [|[k' v'] d Hk' Hd IH]; simpl.
  { by constructor. }
  destruct (decide (k' = k)); by constructor.
Qed.

Lemma dict_set_length d k v : length (dict_set d k v) ≤ S (length d).
Proof.
  induction d as [|[k' v'] d IH]; simpl; [done|].
  destruct (decide (k' = k)); simpl; lia.
Qed.

Lemma dict_set_all_Forall (P : string * ref → Prop) krs d :
  Forall P d → Forall P krs → Forall P (dict_set_all d krs).
Proof.
  unfold dict_set_all. intros Hd Hkrs. revert d Hd.
  induction Hkrs as [|[k r] krs Hkr _ IH]; intros d Hd; simpl; [done|].
  apply IH. by apply dict_set_Forall.
Qed.

Lemma dict_set_all_length krs d :
  length (dict_set_all d krs) ≤ length d + length krs.
Proof.
  unfold dict_set_all. revert d.
  induction krs as [|[k r] krs IH]; intros d; simpl; [lia|].
  specialize (IH (dict_set d k r)).
  pose proof (dict_set_length d k r). lia.
Qed.

Lemma zip_seq_Forall (ks : list string) a n :
  Forall (λ kr : string * ref, a ≤ kr.2 < a + n) (zip ks (seq a n)).
Proof.
  apply Forall_forall. intros [k r] Hin. simpl.
  apply elem_of_zip_r in Hin. apply elem_of_seq in Hin. lia.
Qed.

(** *** The loop that gives the unique names *)

Lemma alike_refl m : alike m m.
Proof. by repeat split. Qed.

Lemma kept_refl m : kept m m.
Proof. split; [apply alike_refl|done]. Qed.

Lemma kept_trans m1 m2 m3 : kept m1 m2 → kept m2 m3 → kept m1 m3.
Proof.
  intros [H12 K12] [H23 K23]. split.
  - unfold alike in *. intuition congruence.
  - intros Hf. rewrite <-(K12 Hf). apply K23. by rewrite (K12 Hf).
Qed.

Lemma made_from_alike e m m' : made_from e m → alike m m' → made_from e m'.
Proof. unfold made_from, alike. intuition congruence. Qed.

Lemma set_unique_name_run r v s m :
  heap s !! r = Some m →
  ∃ m', set_unique_name r v s
        = (Return (), mkState (<[r := m']> (heap s)) (trace s)) ∧
        alike m m' ∧ unique_name m' = Some v.
Proof.
  intros Hm. unfold set_unique_name. rewrite Hm.
  eexists. split; [reflexivity|]. split; [|done]. by repeat split.
Qed.

(** The loop ends normally when the registry refers to objects and is
    not longer than the list of names. *)
Lemma add_unique_names_total uniq items count s :
  Forall (λ kr : string * ref, kr.2 < length (heap s)) items →
  count + length items ≤ length uniq →
  ∃ s', add_unique_names uniq items count s = (Return (), s').
Proof.
  revert count s. induction items as [|[k r] rest IH]; intros count s Hrefs Hlen.
  { by eexists. }
  apply Forall_cons in Hrefs as [Hr Hrefs]. simpl in Hr, Hlen |- *.
  destruct (lookup_lt_is_Some_2 (heap s) r Hr) as [m Hm].
  rewrite (bind_Return _ _ _ _ _ (attr_Return r unique_name s m Hm)).
  destruct (falsy (unique_name m)); [|apply IH; [done|lia]].
  destruct (lookup_lt_is_Some_2 uniq count) as [nm Hnm]; [lia|].
  rewrite (bind_Return _ _ s nm s) by (unfold subscript; by rewrite Hnm).
  destruct (set_unique_name_run r nm s m Hm) as (m' & Hset & _).
  rewrite (bind_Return _ _ _ _ _ Hset).
  apply IH; simpl; [by rewrite length_insert|lia].
Qed.

(** However the loop ends, it logs nothing, touches no object outside
    the registry, and changes of an object only a missing unique name. *)
Lemma add_unique_names_keeps uniq items count s :
  trace (add_unique_names uniq items count s).2 = trace s ∧
  Forall2 kept (heap s) (heap (add_unique_names uniq items count s).2) ∧
  ∀ i, i ∉ items.*2 →
       heap (add_unique_names uniq items count s).2 !! i = heap s !! i.
Proof.
  revert count s. induction items as [|[k r] rest IH]; intros count s.
  { simpl. split; [done|]. split; [|done].
    apply Forall_Forall2_diag, Forall_forall. intros m _. apply kept_refl. }
  assert (Hsame : Forall2 kept (heap s) (heap s)).
  { apply Forall_Forall2_diag, Forall_forall. intros m _. apply kept_refl. }
  simpl. destruct (heap s !! r) as [m|] eqn:Hm.
  2:{ rewrite (bind_Raise _ _ s (TypeError "not an object") s)
        by (unfold attr; by rewrite Hm).
      done. }
  rewrite (bind_Return _ _ _ _ _ (attr_Return r unique_name s m Hm)).
  destruct (falsy (unique_name m)) eqn:Hf.
  2:{ destruct (IH count s) as (Ht & Hk & Hi).
      split; [done|]. split; [done|].
      intros i Hin. apply Hi. csimpl in Hin.
      by apply not_elem_of_cons in Hin as [_ Hin]. }
  destruct (uniq !! count) as [nm|] eqn:Hnm.
  2:{ rewrite (bind_Raise _ _ s (IndexError "list index out of range") s)
        by (unfold subscript; by rewrite Hnm).
      done. }
  rewrite (bind_Return _ _ s nm s) by (unfold subscript; by rewrite Hnm).
  destruct (set_unique_name_run r nm s m Hm) as (m' & Hset & Hal & Hu).
  rewrite (bind_Return _ _ _ _ _ Hset).
  destruct (IH (S count) (mkState (<[r := m']> (heap s)) (trace s)))
    as (Ht & Hk & Hi).
  simpl in *. split; [done|]. split.
  - eapply Forall2_trans; [apply kept_trans| |exact Hk].
    rewrite <-(list_insert_id (heap s) r m Hm) at 1.
    apply Forall2_insert; [done|]. split; [done|congruence].
  - intros i Hin. apply not_elem_of_cons in Hin as [Hne Hin].
    rewrite (Hi i Hin). by apply list_lookup_insert_ne.
Qed.

(** The loop over a registry whose objects [ms] are the last of the heap,
    in the order of the registry: the object at index [i] keeps a unique
    name it has; without one it gets the name at the counter, which has
    advanced once for each object without a unique name before it. *)
Lemma add_unique_names_run uniq ms items count H t :
  items.*2 = seq (length H) (length ms) →
  count + length ms ≤ length uniq →
  ∃ ms',
    add_unique_names uniq items count (mkState (H ++ ms) t)
    = (Return (), mkState (H ++ ms') t) ∧
    Forall2 alike ms ms' ∧
    ∀ i m m', ms !! i = Some m → ms' !! i = Some m' →
      unique_name m'
      = if falsy (unique_name m)
        then uniq !! (count + unnamed (unique_name <$> take i ms))
        else unique_name m.
Proof.
  revert items count H.
  induction ms as [|m0 ms IH]; intros items count H Hrefs Hlen.
  { destruct items; [|done]. exists []. split; [done|]. split; [constructor|].
    intros i m m' Hm. by rewrite lookup_nil in Hm. }
  destruct items as [|[k r] rest]; [done|]. simpl in Hrefs, Hlen.
  injection Hrefs as -> Hrefs. simpl.
  assert (Hm0 : heap (mkState (H ++ m0 :: ms) t) !! length H = Some m0).
  { simpl. by apply list_lookup_middle. }
  rewrite (bind_Return _ _ _ _ _ (attr_Return _ unique_name _ m0 Hm0)).
  destruct (falsy (unique_name m0)) eqn:Hf.
  - destruct (lookup_lt_is_Some_2 uniq count) as [nm Hnm]; [lia|].
    rewrite (bind_Return _ _ _ nm (mkState (H ++ m0 :: ms) t))
      by (unfold subscript; by rewrite Hnm).
    destruct (set_unique_name_run (length H) nm _ m0 Hm0) as (m' & Hset & Hal & Hu).
    rewrite (bind_Return _ _ _ _ _ Hset). simpl.
    rewrite insert_app_r_alt, Nat.sub_diag by done. simpl.
    rewrite (cons_middle m' H ms), app_assoc.
    destruct (IH rest (S count) (H ++ [m'])) as (ms' & Hrun & Hms & Hnames).
    { by rewrite length_app, Nat.add_1_r. }
    { lia. }
    exists (m' :: ms'). rewrite Hrun, <-app_assoc. split; [done|].
    split; [by constructor|].
    intros [|i] m1 m1' Hm1 Hm1'; simpl in *.
    + injection Hm1 as <-. injection Hm1' as <-.
      by rewrite Hf, Hu, Nat.add_0_r.
    + rewrite (Hnames i m1 m1' Hm1 Hm1'), Hf.
      destruct (falsy (unique_name m1)); [|done]. f_equal. unfold fmap. lia.
  - rewrite (cons_middle m0 H ms), app_assoc.
    destruct (IH rest count (H ++ [m0])) as (ms' & Hrun & Hms & Hnames).
    { by rewrite length_app, Nat.add_1_r. }
    { lia. }
    exists (m0 :: ms'). rewrite Hrun, <-app_assoc. split; [done|].
    split; [constructor; [apply alike_refl|done]|].
    intros [|i] m1 m1' Hm1 Hm1'; simpl in *.
    + injection Hm1 as <-. injection Hm1' as <-. by rewrite Hf.
    + by rewrite (Hnames i m1 m1' Hm1 Hm1'), Hf.
Qed.

(** *** The whole of [parse_yaml] *)

(** With the package and the file found and the names listed,
    [parse_yaml] has logged its two lines and is at the loop that fills
    the registry. *)
Lemma parse_yaml_found w package_name c rest p entries names s :
  pkg_path w package_name = Some p →
  yaml_file w (yaml_path p c rest) = Some entries →
  Forall2 listed entries names →
  parse_yaml w package_name (String c rest) s
  = (model_dict ← fill_dict w (rename_duplicates names) entries 0 [];
     add_unique_names (rename_duplicates names) model_dict 0;;
     mret model_dict) (after s (parse_yaml_logs w names)).
Proof.
  intros Hp Hf Hn. unfold parse_yaml.
  rewrite (bind_Return _ _ s p s) by (unfold get_path; by rewrite Hp).
  rewrite (bind_Return _ _ s (if Ascii.eqb c "/" then rest else String c rest) s)
    by done.
  rewrite (bind_Return _ _ s entries s)
    by (unfold open_safe_load; unfold yaml_path in Hf; by rewrite Hf).
  rewrite (bind_Return _ _ _ _ _ (model_names_run entries names s Hn)).
  cbv zeta.
  rewrite (bind_Return _ _ s ()
             (after s [Log INFO ("List of model names: "
                                 +:+ str_names w (rename_duplicates names))]))
    by done.
  rewrite (bind_Return _ _ _ () (after s (parse_yaml_logs w names))); [done|].
  unfold log, emit, after, parse_yaml_logs. simpl. by rewrite <-app_assoc.
Qed.

Lemma unique_names_of_entries entries (ms : list Model) :
  Forall2 (λ e m, made_from e m ∧ unique_name m = e_unique_name e) entries ms →
  unique_name <$> ms = e_unique_name <$> entries.
Proof. induction 1 as [|e m entries ms [_ He] _ IH]; csimpl; congruence. Qed.

(** [parse_yaml] on a file whose entries are complete: the registry is
    built by one assignment for each name, the new objects are the entries'
    in order, and a unique name that an entry declares stays. *)
Lemma parse_yaml_any w package_name c rest p entries names s :
  pkg_path w package_name = Some p →
  yaml_file w (yaml_path p c rest) = Some entries →
  Forall complete entries → Forall2 listed entries names →
  ∃ ms,
    parse_yaml w package_name (String c rest) s
    = (Return (dict_set_all [] (zip (rename_duplicates names)
                                   (seq (length (heap s)) (length entries)))),
       mkState (heap s ++ ms) (trace s ++ parse_yaml_logs w names)) ∧
    Forall2 (λ e m, made_from e m ∧
                    (falsy (e_unique_name e) = false →
                     unique_name m = e_unique_name e)) entries ms.
Proof.
  intros Hp Hf Hc Hn.
  assert (Hu : length (rename_duplicates names) = length entries).
  { by rewrite rename_duplicates_length, (Forall2_length _ _ _ Hn). }
  rewrite (parse_yaml_found _ _ _ _ _ _ _ _ Hp Hf Hn).
  destruct (fill_dict_run w (rename_duplicates names) entries 0 []
              (after s (parse_yaml_logs w names))) as (ms0 & Hfill & Hms0).
  { lia. }
  { by rewrite drop_0, take_ge by lia. }
  rewrite drop_0, take_ge in Hms0 by lia. rewrite Hu in Hfill.
  simpl in Hfill. rewrite (bind_Return _ _ _ _ _ Hfill).
  pose proof (Forall2_length _ _ _ Hms0) as Hlen0.
  set (d := dict_set_all [] _).
  set (s1 := mkState (heap s ++ ms0) _).
  assert (Hd : Forall (λ kr : string * ref,
                         length (heap s) ≤ kr.2 < length (heap s) + length entries) d).
  { apply dict_set_all_Forall; [constructor|apply zip_seq_Forall]. }
  destruct (add_unique_names_total (rename_duplicates names) d 0 s1)
    as (s' & Hadd).
  { eapply Forall_impl; [exact Hd|]. intros kr Hkr. unfold s1. simpl in *.
    rewrite length_app. lia. }
  { pose proof (dict_set_all_length
                  (zip (rename_duplicates names)
                     (seq (length (heap s)) (length entries))) []) as Hle.
    fold d in Hle. rewrite length_zip, length_seq in Hle. simpl in Hle. lia. }
  destruct (add_unique_names_keeps (rename_duplicates names) d 0 s1)
    as (Ht & Hk & Hi).
  rewrite Hadd in Ht, Hk, Hi. simpl in Ht, Hk, Hi.
  rewrite (bind_Return _ _ _ _ _ Hadd).
  apply Forall2_app_inv_l in Hk as (k1 & k2 & Hk1 & Hk2 & Heq).
  assert (k1 = heap s) as ->.
  { apply (list_eq_same_length _ _ (length (heap s)));
      [done|by rewrite (Forall2_length _ _ _ Hk1)|].
    intros i x y Hlt Hx Hy.
    assert (Hout : i ∉ d.*2).
    { intros (kr & -> & Hin)%list_elem_of_fmap.
      apply (proj1 (Forall_forall _ _) Hd) in Hin. lia. }
    specialize (Hi i Hout). rewrite Heq in Hi.
    rewrite (lookup_app_l_Some _ _ _ _ Hx) in Hi.
    rewrite (lookup_app_l_Some _ _ _ _ Hy) in Hi. congruence. }
  exists k2. split.
  { destruct s' as [h' t']. simpl in *. by subst. }
  eapply Forall2_trans; [|exact Hms0|exact Hk2].
  intros e m0 m [Hmade Hun] [Hal Hkeep]. split.
  - by eapply made_from_alike.
  - intros Hfalsy. rewrite Hkeep; [done|]. by rewrite Hun.
Qed.

(** When the names that [rename_duplicates] yields are distinct, the
    registry has one key for each entry, in order, and the counter of the
    last loop decides the unique name of an object that has none. *)
Lemma parse_yaml_run w package_name c rest p entries names s :
  pkg_path w package_name = Some p →
  yaml_file w (yaml_path p c rest) = Some entries →
  Forall complete entries → Forall2 listed entries names →
  NoDup (rename_duplicates names) →
  ∃ ms,
    parse_yaml w package_name (String c rest) s
    = (Return (zip (rename_duplicates names)
                 (seq (length (heap s)) (length entries))),
       mkState (heap s ++ ms) (trace s ++ parse_yaml_logs w names)) ∧
    Forall2 made_from entries ms ∧
    ∀ i e m, entries !! i = Some e → ms !! i = Some m →
      unique_name m
      = if falsy (e_unique_name e)
        then rename_duplicates names
               !! unnamed (e_unique_name <$> take i entries)
        else e_unique_name e.
Proof.
  intros Hp Hf Hc Hn Hnd.
  assert (Hu : length (rename_duplicates names) = length entries).
  { by rewrite rename_duplicates_length, (Forall2_length _ _ _ Hn). }
  rewrite (parse_yaml_found _ _ _ _ _ _ _ _ Hp Hf Hn).
  destruct (fill_dict_run w (rename_duplicates names) entries 0 []
              (after s (parse_yaml_logs w names))) as (ms0 & Hfill & Hms0).
  { lia. }
  { by rewrite drop_0, take_ge by lia. }
  rewrite drop_0, take_ge in Hms0 by lia. rewrite Hu in Hfill.
  simpl in Hfill. rewrite dict_set_all_fresh in Hfill;
    [|done|by rewrite length_seq].
  rewrite (bind_Return _ _ _ _ _ Hfill). simpl.
  pose proof (Forall2_length _ _ _ Hms0) as Hlen0.
  destruct (add_unique_names_run (rename_duplicates names) ms0
              (zip (rename_duplicates names)
                 (seq (length (heap s)) (length entries)))
              0 (heap s) (trace s ++ parse_yaml_logs w names))
    as (ms & Hadd & Hal & Hnames).
  { rewrite snd_zip by (rewrite length_seq; lia). by rewrite Hlen0. }
  { lia. }
  rewrite (bind_Return _ _ _ _ _ Hadd).
  exists ms. split; [done|]. split.
  { eapply Forall2_trans; [|exact Hms0|exact Hal].
    intros e m0 m [Hmade _] Hm. by eapply made_from_alike. }
  intros i e m He Hm.
  destruct (Forall2_lookup_l _ _ _ _ _ Hms0 He) as (m0 & Hm0 & _ & Hun).
  rewrite (Hnames i m0 m Hm0 Hm), Hun. simpl.
  by rewrite fmap_take, (unique_names_of_entries _ _ Hms0), <-fmap_take.
Qed.

Lemma unnamed_no_key (entries : list Entry) :
  Forall (λ e, e_unique_name e = None) entries →
  unnamed (e_unique_name <$> entries) = length entries.
Proof. induction 1 as [|e entries He _ IH]; csimpl; [done|]. by rewrite He, IH. Qed.

Lemma ends_model_names models : ends (model_names models).
Proof.
  induction models as [|e rest IH]; simpl; [apply ends_ret|].
  apply ends_bind; [|intros k; apply ends_bind; [apply IH|intros; apply ends_ret]].
  unfold entry_key.
  destruct (e_unique_name e); [apply ends_ret|].
  destruct (e_name e); [apply ends_ret|apply ends_raise].
Qed.

Lemma ends_fill_dict w names list_of_dict idx d :
  ends (fill_dict w names list_of_dict idx d).
Proof.
  revert idx d. induction names as [|nm rest IH]; intros idx d; simpl.
  { apply ends_ret. }
  apply ends_bind; [apply ends_subscript|intros args].
  apply ends_bind; [|intros obj; apply IH].
  unfold Model_init.
  destruct (e_others args), (e_name args), (e_type args);
    first [apply ends_raise|by intros st].
Qed.

Lemma ends_add_unique_names names items count :
  ends (add_unique_names names items count).
Proof.
  revert count. induction items as [|[k r] rest IH]; intros count; simpl.
  { apply ends_ret. }
  apply ends_bind; [apply ends_attr|intros u].
  destruct (falsy u); [|apply IH].
  apply ends_bind; [apply ends_subscript|intros nm].
  apply ends_bind; [|intros _; apply IH].
  intros s. unfold set_unique_name. by destruct (heap s !! r).
Qed.

Lemma ends_parse_yaml w package_name yaml_relative_path :
  ends (parse_yaml w package_name yaml_relative_path).
Proof.
  unfold parse_yaml.
  apply ends_bind; [apply ends_get_path|intros p].
  apply ends_bind;
    [destruct yaml_relative_path; [apply ends_raise|apply ends_ret]|intros rel].
  apply ends_bind; [|intros models].
  { unfold open_safe_load.
    destruct (yaml_file w _); [apply ends_ret|apply ends_raise]. }
  apply ends_bind; [apply ends_model_names|intros names].
  apply ends_bind; [apply ends_emit|intros _].
  apply ends_bind; [apply ends_emit|intros _].
  apply ends_bind; [apply ends_fill_dict|intros d].
  apply ends_bind; [apply ends_add_unique_names|intros _].
  apply ends_ret.
Qed.

(** For a configuration file that holds a list of entries under [models]
    when it can be opened: [parse_yaml] returns a registry exactly when the
    package is found, the relative path is not empty, the file can be
    opened and every entry has a name and a type and no key that is not a
    field of [Model]. In every other case it raises: it always ends. *)
Theorem parse_yaml_returns (w : World) (package_name yaml_relative_path : string)
  (s : State) :
  (parse_yaml w package_name yaml_relative_path s).1 ≠ Blocked ∧
  ((∃ m, (parse_yaml w package_name yaml_relative_path s).1 = Return m) ↔
   ∃ p c rest entries,
     pkg_path w package_name = Some p ∧ yaml_relative_path = String c rest ∧
     yaml_file w (yaml_path p c rest) = Some entries ∧
     Forall complete entries).
Proof.
  split; [apply ends_parse_yaml|]. split.
  - intros [m Hm].
    destruct (parse_yaml w package_name yaml_relative_path s) as [o s'] eqn:Hrun.
    simpl in Hm. subst o. unfold parse_yaml in Hrun.
    apply bind_Return_inv in Hrun as (p & s1 & Hp & Hrun).
    apply bind_Return_inv in Hrun as (rel & s2 & Hrel & Hrun).
    apply bind_Return_inv in Hrun as (entries & s3 & Hf & Hrun).
    apply bind_Return_inv in Hrun as (names & s4 & Hn & Hrun).
    apply bind_Return_inv in Hrun as ([] & s5 & _ & Hrun).
    apply bind_Return_inv in Hrun as ([] & s6 & _ & Hrun).
    apply bind_Return_inv in Hrun as (d & s7 & Hfill & _).
    unfold get_path in Hp.
    destruct (pkg_path w package_name) as [p'|] eqn:Hpkg; [|done].
    injection Hp as -> <-.
    destruct yaml_relative_path as [|c rest]; [done|]. injection Hrel as <- <-.
    unfold open_safe_load in Hf.
    destruct (yaml_file w _) as [l|] eqn:Hfile; [|done]. injection Hf as -> <-.
    apply model_names_inv in Hn as [Hn ->].
    apply fill_dict_inv in Hfill as [_ Hc].
    exists p, c, rest, entries. split; [done|]. split; [done|].
    split; [exact Hfile|].
    rewrite drop_0, take_ge in Hc; [done|].
    by rewrite rename_duplicates_length, (Forall2_length _ _ _ Hn).
  - intros (p & c & rest & entries & Hp & -> & Hf & Hc).
    destruct (Forall_complete_listed entries Hc) as [names Hn].
    destruct (parse_yaml_any w package_name c rest p entries names s Hp Hf Hc Hn)
      as (ms & Hrun & _).
    rewrite Hrun. by eexists.
Qed.

(** Whatever the names are, [parse_yaml] on a file whose entries have a
    name, a type and no key that is not a field of [Model] logs two lines,
    one at level INFO and one at level DEBUG, leaves the objects that
    exist as they are and makes one new object for each entry, in the
    order of the file: the object has the fields of its entry, with the
    defaults of the dataclass for the missing ones, and a unique name that
    the entry declares (and that is not empty) is the object's unique
    name. *)
Theorem parse_yaml_allocates (w : World) (package_name p : string) (c : ascii)
  (rest : string) (entries : list Entry) (s : State) :
  pkg_path w package_name = Some p →
  yaml_file w (yaml_path p c rest) = Some entries →
  Forall complete entries →
  ∃ m s' info debug,
    parse_yaml w package_name (String c rest) s = (Return m, s') ∧
    trace s' = trace s ++ [Log INFO info; Log DEBUG debug] ∧
    length (heap s') = length (heap s) + length entries ∧
    (∀ r obj, heap s !! r = Some obj → heap s' !! r = Some obj) ∧
    ∀ i e, entries !! i = Some e →
      ∃ obj, heap s' !! (length (heap s) + i) = Some obj ∧ made_from e obj ∧
             (falsy (e_unique_name e) = false →
              unique_name obj = e_unique_name e).
Proof.
  intros Hp Hf Hc.
  destruct (Forall_complete_listed entries Hc) as [names Hn].
  destruct (parse_yaml_any w package_name c rest p entries names s Hp Hf Hc Hn)
    as (ms & Hrun & Hms).
  eexists _, _, _, _. split; [exact Hrun|]. simpl.
  split; [reflexivity|]. split.
  { by rewrite length_app, (Forall2_length _ _ _ Hms). }
  split.
  { intros r obj Hr. by apply lookup_app_l_Some. }
  intros i e He.
  destruct (Forall2_lookup_l _ _ _ _ _ Hms He) as (obj & Hobj & Hmade & Hun).
  exists obj. split; [|done].
  rewrite lookup_app_r by lia. by rewrite Nat.add_comm, Nat.add_sub.
Qed.

Lemma parse_yaml_allocates_witness :
  let w := world [entry "table" "sdf" (Some "t1") "pkg";
                  entry "table" "sdf" (Some "t1") "pkg"] true spawned in
  pkg_path w "pkg" = Some "/opt/pkg" ∧
  (∃ s', (parse_yaml w "pkg" "/config/models.yaml" start).2 = s' ∧
         length (heap s') = 2).
Proof.
  split; [reflexivity|].
  destruct (parse_yaml_allocates
              (world [entry "table" "sdf" (Some "t1") "pkg";
                      entry "table" "sdf" (Some "t1") "pkg"] true spawned)
              "pkg" "/opt/pkg" "/" "config/models.yaml"
              [entry "table" "sdf" (Some "t1") "pkg";
               entry "table" "sdf" (Some "t1") "pkg"] start)
    as (m & s' & info & debug & Hrun & _ & Hlen & _).
  - reflexivity.
  - reflexivity.
  - repeat constructor; by eexists.
  - exists s'. split; [by rewrite Hrun|exact Hlen].
Defined.

(** When the names that [rename_duplicates] yields are distinct, the
    registry holds one pair for each entry, in the order of the file: the
    key is the name [rename_duplicates] yields at the entry's index, the
    value the object made from the entry. The object of an entry without a
    unique name gets the name at the index that counts the entries without
    a unique name before it; an entry's own unique name stays. *)
Theorem parse_yaml_registry (w : World) (package_name p : string) (c : ascii)
  (rest : string) (entries : list Entry) (names : list string) (s : State) :
  pkg_path w package_name = Some p →
  yaml_file w (yaml_path p c rest) = Some entries →
  Forall complete entries → Forall2 listed entries names →
  NoDup (rename_duplicates names) →
  ∃ s',
    parse_yaml w package_name (String c rest) s
    = (Return (zip (rename_duplicates names)
                 (seq (length (heap s)) (length entries))), s') ∧
    ∀ i e, entries !! i = Some e →
      ∃ obj, heap s' !! (length (heap s) + i) = Some obj ∧ made_from e obj ∧
        unique_name obj
        = if falsy (e_unique_name e)
          then rename_duplicates names
                 !! unnamed (e_unique_name <$> take i entries)
          else e_unique_name e.
Proof.
  intros Hp Hf Hc Hn Hnd.
  destruct (parse_yaml_run w package_name c rest p entries names s
              Hp Hf Hc Hn Hnd) as (ms & Hrun & Hms & Hnames).
  eexists. split; [exact Hrun|]. simpl. intros i e He.
  destruct (Forall2_lookup_l _ _ _ _ _ Hms He) as (obj & Hobj & Hmade).
  exists obj. split; [|by eauto].
  rewrite lookup_app_r by lia. by rewrite Nat.add_comm, Nat.add_sub.
Qed.

Lemma parse_yaml_registry_witness :
  let entries := [entry "a" "sdf" (Some "u") "pkg";
                  entry "b" "sdf" None "pkg";
                  entry "b" "sdf" None "pkg"] in
  let w := world entries true spawned in
  NoDup (rename_duplicates ["u"; "b"; "b"]) ∧
  (parse_yaml w "pkg" "/config/models.yaml" start).1
  = Return [("u", 0); ("b", 1); ("b_1", 2)] ∧
  ∃ obj, heap (parse_yaml w "pkg" "/config/models.yaml" start).2 !! 2 = Some obj ∧
         unique_name obj = Some "b".
Proof.
  assert (Hnd : NoDup (rename_duplicates ["u"; "b"; "b"])).
  { apply (bool_decide_unpack _). by vm_compute. }
  split; [exact Hnd|].
  destruct (parse_yaml_registry
              (world [entry "a" "sdf" (Some "u") "pkg";
                      entry "b" "sdf" None "pkg";
                      entry "b" "sdf" None "pkg"] true spawned)
              "pkg" "/opt/pkg" "/" "config/models.yaml"
              [entry "a" "sdf" (Some "u") "pkg";
               entry "b" "sdf" None "pkg";
               entry "b" "sdf" None "pkg"]
              ["u"; "b"; "b"] start)
    as (s' & Hrun & Hobjs).
  - reflexivity.
  - reflexivity.
  - repeat constructor; by eexists.
  - repeat constructor; first [by left|by right].
  - exact Hnd.
  - rewrite Hrun. split; [reflexivity|].
    destruct (Hobjs 2 (entry "b" "sdf" None "pkg") eq_refl) as (obj & Hobj & _ & Hu).
    exists obj. split; [exact Hobj|exact Hu].
Defined.

(** The normal case: when no entry declares a unique name and the names
    that [rename_duplicates] yields are distinct, every object of the
    registry is stored under its own unique name, and the registry holds
    the objects of the entries in the order of the file. *)
Theorem parse_yaml_keys_are_unique_names (w : World) (package_name p : string)
  (c : ascii) (rest : string) (entries : list Entry) (names : list string)
  (s : State) :
  pkg_path w package_name = Some p →
  yaml_file w (yaml_path p c rest) = Some entries →
  Forall complete entries →
  Forall (λ e, e_unique_name e = None) entries →
  Forall2 (λ e n, e_name e = Some n) entries names →
  NoDup (rename_duplicates names) →
  ∃ m s',
    parse_yaml w package_name (String c rest) s = (Return m, s') ∧
    m.*1 = rename_duplicates names ∧
    ∀ i e, entries !! i = Some e →
      ∃ k r obj, m !! i = Some (k, r) ∧ heap s' !! r = Some obj ∧
                 made_from e obj ∧ unique_name obj = Some k.
Proof.
  intros Hp Hf Hc Hnone Hnames Hnd.
  assert (Hn : Forall2 listed entries names).
  { clear -Hnone Hnames. induction Hnames as [|e n entries names He _ IH].
    { constructor. }
    apply Forall_cons in Hnone as [Hnone1 Hnone].
    constructor; [by right|by apply IH]. }
  assert (Hu : length (rename_duplicates names) = length entries).
  { by rewrite rename_duplicates_length, (Forall2_length _ _ _ Hn). }
  destruct (parse_yaml_run w package_name c rest p entries names s
              Hp Hf Hc Hn Hnd) as (ms & Hrun & Hms & Hun).
  eexists _, _. split; [exact Hrun|].
  split. { apply fst_zip. rewrite length_seq. lia. }
  simpl. intros i e He.
  pose proof (lookup_lt_Some _ _ _ He) as Hi.
  destruct (Forall2_lookup_l _ _ _ _ _ Hms He) as (obj & Hobj & Hmade).
  destruct (lookup_lt_is_Some_2 (rename_duplicates names) i) as [k Hk]; [lia|].
  exists k, (length (heap s) + i), obj. split; [|split; [|split; [done|]]].
  - apply lookup_zip_with_Some. exists k, (length (heap s) + i).
    split; [done|]. split; [done|]. by apply lookup_seq_lt.
  - rewrite lookup_app_r by lia. by rewrite Nat.add_comm, Nat.add_sub.
  - rewrite (Hun i e obj He Hobj).
    rewrite (proj1 (Forall_forall _ _) Hnone e) by (by eapply list_elem_of_lookup_2).
    simpl. rewrite unnamed_no_key by (by apply Forall_take).
    by rewrite length_take_le by lia.
Qed.

Lemma parse_yaml_keys_are_unique_names_witness :
  let entries := [entry "table" "sdf" None "pkg";
                  entry "table" "sdf" None "pkg"] in
  let w := world entries true spawned in
  NoDup (rename_duplicates ["table"; "table"]) ∧
  ∃ m s',
    parse_yaml w "pkg" "/config/models.yaml" start = (Return m, s') ∧
    m.*1 = ["table"; "table_1"] ∧
    ∀ i e, entries !! i = Some e →
      ∃ k r obj, m !! i = Some (k, r) ∧ heap s' !! r = Some obj ∧
                 made_from e obj ∧ unique_name obj = Some k.
Proof.
  assert (Hnd : NoDup (rename_duplicates ["table"; "table"])).
  { apply (bool_decide_unpack _). by vm_compute. }
  split; [exact Hnd|].
  apply (parse_yaml_keys_are_unique_names
           (world [entry "table" "sdf" None "pkg";
                   entry "table" "sdf" None "pkg"] true spawned)
           "pkg" "/opt/pkg" "/" "config/models.yaml"
           [entry "table" "sdf" None "pkg"; entry "table" "sdf" None "pkg"]
           ["table"; "table"] start).
  - reflexivity.
  - reflexivity.
  - repeat constructor; by eexists.
  - by repeat constructor.
  - by repeat constructor.
  - exact Hnd.
Defined.

(** *** The exceptions of [parse_yaml] *)

Lemma model_names_cases entries s :
  (∃ names, Forall2 listed entries names) ∨
  model_names entries s = (Raise (KeyError "'name'"), s).
Proof.
  induction entries as [|e entries IH]; [left; exists []; constructor|].
  destruct (e_unique_name e) as [u|] eqn:Hu, (e_name e) as [n|] eqn:Hn.
  1-3: destruct IH as [[names IH]|IH];
    [left; eexists (_ :: names); constructor; [|exact IH]; unfold listed; eauto
    |right; simpl;
     rewrite (bind_Return _ _ s _ s) by (unfold entry_key; by rewrite Hu, ?Hn);
     by rewrite (bind_Raise _ _ _ _ _ IH)].
  right. simpl.
  by rewrite (bind_Raise _ _ s (KeyError "'name'") s)
    by (unfold entry_key; by rewrite Hu, Hn).
Qed.

Lemma fill_dict_cases w names entries idx d s :
  length names ≤ length entries - idx →
  (∃ d' s', fill_dict w names entries idx d s = (Return d', s')) ∨
  ∃ e s', e ∈ entries ∧ ¬ complete e ∧
          fill_dict w names entries idx d s
          = (Raise (TypeError (init_error w e)), s').
Proof.
  revert idx d s. induction names as [|nm rest IH]; intros idx d s Hlen.
  { left. eexists _, _. reflexivity. }
  simpl in Hlen |- *.
  destruct (lookup_lt_is_Some_2 entries idx) as [e He]; [lia|].
  rewrite (bind_Return _ _ s e s) by (unfold subscript; by rewrite He).
  destruct (Model_init w e s) as [[obj|ex|] s1] eqn:Hobj.
  - rewrite (bind_Return _ _ _ _ _ Hobj). apply IH. lia.
  - right. rewrite (bind_Raise _ _ _ _ _ Hobj). exists e, s1.
    split; [by eapply list_elem_of_lookup_2|].
    unfold Model_init, alloc, raise, complete in *.
    destruct (e_others e), (e_name e), (e_type e);
      first [discriminate Hobj|injection Hobj as <- <-];
      (split; [|done]); intros ([? ?] & [? ?] & ?); done.
  - unfold Model_init in Hobj.
    destruct (e_others e), (e_name e), (e_type e); done.
Qed.

(** The exceptions of [parse_yaml], for a configuration file that holds
    a list of entries under [models] when it can be opened: a package that
    is not found, an empty relative path, a file that cannot be opened and
    an entry with neither [unique_name] nor [name] end it before it has
    logged or made anything; the only other one is the [TypeError] of
    [Model] for an entry without [name] or [type] or with a key that is no
    field. The loop with the counter raises none. The texts are those of
    [rospkg], of [open] and of Python. *)
Theorem parse_yaml_exceptions (w : World) (package_name yaml_relative_path : string)
  (s : State) (e : Exn) :
  (parse_yaml w package_name yaml_relative_path s).1 = Raise e →
  ((parse_yaml w package_name yaml_relative_path s).2 = s ∧
   (e = ResourceNotFound (not_found w package_name) ∨
    e = IndexError "string index out of range" ∨
    (∃ f, e = IOError (io_error w f)) ∨
    e = KeyError "'name'")) ∨
  ∃ args, ¬ complete args ∧ e = TypeError (init_error w args).
Proof.
  intros Hraise.
  destruct (parse_yaml w package_name yaml_relative_path s) as [o s'] eqn:Hrun.
  simpl in *. subst o.
  destruct (pkg_path w package_name) as [p|] eqn:Hp.
  2:{ left. unfold parse_yaml in Hrun.
      rewrite (bind_Raise _ _ s (ResourceNotFound (not_found w package_name)) s)
        in Hrun by (unfold get_path; by rewrite Hp).
      injection Hrun as <- <-. auto. }
  destruct yaml_relative_path as [|c rest].
  { left. unfold parse_yaml in Hrun.
    rewrite (bind_Return _ _ s p s) in Hrun by (unfold get_path; by rewrite Hp).
    rewrite (bind_Raise _ _ s (IndexError "string index out of range") s) in Hrun
      by done.
    injection Hrun as <- <-. auto. }
  destruct (yaml_file w (yaml_path p c rest)) as [entries|] eqn:Hf.
  2:{ left. unfold parse_yaml in Hrun.
      rewrite (bind_Return _ _ s p s) in Hrun by (unfold get_path; by rewrite Hp).
      rewrite (bind_Return _ _ s (if Ascii.eqb c "/" then rest else String c rest) s)
        in Hrun by done.
      rewrite (bind_Raise _ _ s (IOError (io_error w (yaml_path p c rest))) s)
        in Hrun
        by (unfold open_safe_load; unfold yaml_path in *; by rewrite Hf).
      injection Hrun as <- <-. eauto 6. }
  destruct (model_names_cases entries s) as [[names Hn]|Hk].
  2:{ left. unfold parse_yaml in Hrun.
      rewrite (bind_Return _ _ s p s) in Hrun by (unfold get_path; by rewrite Hp).
      rewrite (bind_Return _ _ s (if Ascii.eqb c "/" then rest else String c rest) s)
        in Hrun by done.
      rewrite (bind_Return _ _ s entries s) in Hrun
        by (unfold open_safe_load; unfold yaml_path in Hf; by rewrite Hf).
      rewrite (bind_Raise _ _ _ _ _ Hk) in Hrun.
      injection Hrun as <- <-. auto 6. }
  right.
  assert (Hu : length (rename_duplicates names) = length entries).
  { by rewrite rename_duplicates_length, (Forall2_length _ _ _ Hn). }
  destruct (fill_dict_cases w (rename_duplicates names) entries 0 []
              (after s (parse_yaml_logs w names)))
    as [(d' & s1 & Hfill)|(args & s1 & _ & Hargs & Hfill)]; [lia| |].
  - apply fill_dict_inv in Hfill as [_ Hc].
    rewrite drop_0, take_ge in Hc by lia.
    destruct (parse_yaml_any w package_name c rest p entries names s Hp Hf Hc Hn)
      as (ms & Hret & _).
    congruence.
  - rewrite (parse_yaml_found _ _ _ _ _ _ _ _ Hp Hf Hn) in Hrun.
    rewrite (bind_Raise _ _ _ _ _ Hfill) in Hrun.
    exists args. split; [done|congruence].
Qed.

Lemma parse_yaml_exceptions_witness :
  let w := world [entry "table" "sdf" None "pkg"] true spawned in
  (parse_yaml w "nowhere" "/config/models.yaml" start).1
  = Raise (ResourceNotFound "nowhere") ∧
  (parse_yaml w "nowhere" "/config/models.yaml" start).2 = start.
Proof.
  split; [reflexivity|].
  destruct (parse_yaml_exceptions
              (world [entry "table" "sdf" None "pkg"] true spawned)
              "nowhere" "/config/models.yaml" start
              (ResourceNotFound "nowhere") eq_refl) as [[Hs _]|(args & _ & He)].
  - exact Hs.
  - discriminate He.
Defined.

(** ** The loop in a random order *)

Lemma dict_lookup_Some_elem_of d k r : dict_lookup d k = Some r → (k, r) ∈ d.
Proof.
  induction d as [|[k' v] d IH]; simpl; [done|].
  destruct (decide (k' = k)) as [->|Hne].
  - intros [= ->]. by left.
  - intros Hk. right. by apply IH.
Qed.

Lemma dict_del_keys d key k : k ∈ (dict_del d key).*1 → k ∈ d.*1.
Proof.
  induction d as [|[k' v] d IH]; csimpl; [done|].
  destruct (decide (k' = key)); csimpl.
  - by right.
  - intros [->|Hk]%elem_of_cons; [by left|right; by apply IH].
Qed.

Lemma dict_del_NoDup d key : NoDup d.*1 → NoDup (dict_del d key).*1.
Proof.
  induction d as [|[k' v] d IH]; csimpl; [done|].
  intros [Hk' Hd]%NoDup_cons. destruct (decide (k' = key)); csimpl; [done|].
  apply NoDup_cons. split; [|by apply IH].
  intros Hin. by apply Hk', (dict_del_keys d key).
Qed.

(** After [del d[key]] the key is gone, and the other keys have the
    values they had. *)
Lemma dict_del_lookup_Some d key k r :
  NoDup d.*1 → dict_lookup (dict_del d key) k = Some r →
  k ≠ key ∧ dict_lookup d k = Some r.
Proof.
  induction d as [|[k' v] d IH]; csimpl; [done|].
  intros [Hk' Hd]%NoDup_cons. destruct (decide (k' = key)) as [->|Hne]; simpl.
  - intros Hk. destruct (decide (key = k)) as [->|Hne].
    + apply dict_lookup_Some_elem_of in Hk. destruct Hk'.
      apply list_elem_of_fmap. by exists (k, r).
    + done.
  - destruct (decide (k' = k)) as [->|Hne']; [done|].
    intros Hk. by apply IH.
Qed.

(** The values of the registry are distinct objects: every assignment
    stores an object that was made just before it. *)
Lemma dict_set_values d k v x :
  x ∈ (dict_set d k v).*2 → x ∈ d.*2 ∨ x = v.
Proof.
  induction d as [|[k' v'] d IH]; csimpl.
  { intros ->%list_elem_of_singleton. by right. }
  destruct (decide (k' = k)); csimpl.
  - intros [->|Hx]%elem_of_cons; [by right|left; by right].
  - intros [->|Hx]%elem_of_cons; [left; by left|].
    destruct (IH Hx) as [?|?]; [left; by right|by right].
Qed.

Lemma dict_set_values_NoDup d k v :
  NoDup d.*2 → v ∉ d.*2 → NoDup (dict_set d k v).*2.
Proof.
  induction d as [|[k' v'] d IH]; csimpl.
  { intros _ _. apply NoDup_singleton. }
  intros [Hv' Hd]%NoDup_cons [Hne Hv]%not_elem_of_cons.
  destruct (decide (k' = k)); csimpl; apply NoDup_cons.
  - done.
  - split; [|by apply IH].
    intros [?|?]%dict_set_values; [done|congruence].
Qed.

Lemma fill_dict_values w names entries idx d s d' s' :
  fill_dict w names entries idx d s = (Return d', s') →
  NoDup d.*2 → Forall (λ r, r < length (heap s)) d.*2 → NoDup d'.*2.
Proof.
  revert idx d s. induction names as [|nm rest IH]; intros idx d s; simpl.
  { by intros [= <- _]. }
  intros (e & s1 & He & (obj & s2 & Hobj & Hrest)%bind_Return_inv)%bind_Return_inv
    Hnd Hlt.
  unfold subscript in He. destruct (entries !! idx) as [e'|]; [|done].
  injection He as -> <-.
  unfold Model_init in Hobj.
  destruct (e_others e), (e_name e), (e_type e); try done.
  injection Hobj as <- <-.
  apply (IH _ _ _ Hrest).
  - apply dict_set_values_NoDup; [done|].
    intros Hin. apply (proj1 (Forall_forall _ _) Hlt) in Hin. lia.
  - apply Forall_forall. intros x [Hx| ->]%dict_set_values; simpl;
      rewrite length_app; simpl; [|lia].
    apply (proj1 (Forall_forall _ _) Hlt) in Hx. lia.
Qed.

Lemma parse_yaml_values w package_name yaml_relative_path s m s1 :
  parse_yaml w package_name yaml_relative_path s = (Return m, s1) →
  NoDup m.*2.
Proof.
  intros Hrun. unfold parse_yaml in Hrun.
  apply bind_Return_inv in Hrun as (p & s2 & _ & Hrun).
  apply bind_Return_inv in Hrun as (rel & s3 & _ & Hrun).
  apply bind_Return_inv in Hrun as (models & s4 & _ & Hrun).
  apply bind_Return_inv in Hrun as (names & s5 & _ & Hrun).
  apply bind_Return_inv in Hrun as ([] & s6 & _ & Hrun).
  apply bind_Return_inv in Hrun as ([] & s7 & _ & Hrun).
  apply bind_Return_inv in Hrun as (d & s8 & Hfill & Hrun).
  apply bind_Return_inv in Hrun as ([] & s9 & _ & Hrun).
  injection Hrun as <- _.
  eapply fill_dict_values; [exact Hfill|apply NoDup_nil_2|constructor].
Qed.

(** Distinct keys of a registry with distinct values have distinct
    values. *)
Lemma dict_lookup_NoDup d ks refs :
  NoDup d.*2 → NoDup ks →
  Forall2 (λ k r, dict_lookup d k = Some r) ks refs → NoDup refs.
Proof.
  intros Hd Hks Hall. induction Hall as [|k r ks refs Hk Hall IH].
  { constructor. }
  apply NoDup_cons in Hks as [Hk' Hks]. apply NoDup_cons. split; [|by apply IH].
  intros (i & Hi)%list_elem_of_lookup_1.
  destruct (Forall2_lookup_r _ _ _ _ _ Hall Hi) as (k2 & Hk2 & Hr2).
  assert (k2 = k) as ->.
  2:{ apply Hk'. by eapply list_elem_of_lookup_2. }
  apply dict_lookup_Some_elem_of in Hk, Hr2. clear -Hd Hk Hr2.
  induction d as [|[k' v] d IH]; [by apply elem_of_nil in Hk|].
  csimpl in Hd. apply NoDup_cons in Hd as [Hv Hd].
  assert (Hin : ∀ k0, (k0, r) ∈ d → r ∈ d.*2).
  { intros k0 H0. apply list_elem_of_fmap. by exists (k0, r). }
  apply elem_of_cons in Hk as [Hk|Hk];
    apply elem_of_cons in Hr2 as [Hr2|Hr2]; simplify_eq;
    [done| | |by apply IH]; destruct Hv; eauto.
Qed.

Section sampled.

Variable w : World.

Lemma ends_spawn_model r : ends (spawn_model w r).
Proof.
  unfold spawn_model.
  apply ends_bind; [apply ends_emit|intros _].
  apply ends_bind; [apply ends_attr|intros package_name].
  apply ends_bind; [apply ends_make_pose|intros spawn_pose].
  apply ends_bind; [apply ends_attr|intros ty].
  destruct (decide (ty = "sdf")); [apply ends_sdf_branch|].
  apply ends_bind; [apply ends_attr|intros ty'].
  destruct (decide (ty' = "urdf")); [apply ends_urdf_branch|].
  apply ends_bind; [apply ends_attr|intros ty''].
  apply ends_bind; [apply ends_emit|intros _].
  apply ends_call_spawn.
Qed.

(** However a call of [spawn_model] ends, the trace shows its entry, and
    no other. *)
Lemma spawn_model_calls r s :
  calls (trace (spawn_model w r s).2) = calls (trace s) ++ [r].
Proof.
  destruct (spawn_model_events w plain r s) as (evs & Hs' & Hevs); [done..|].
  rewrite Hs'. apply calls_sleeps_of_plain in Hevs as [Hc _]. simpl.
  rewrite calls_app. simpl. by rewrite Hc.
Qed.

(** The loop over the sampled keys ends. It has handed to [spawn_model]
    the models of a first part of the keys, which holds no key twice; of
    all the keys when it comes to its end. *)
Lemma spawn_sampled_calls time_interval keys m s :
  NoDup m.*1 →
  (spawn_sampled w time_interval m keys s).1 ≠ Blocked ∧
  ∃ ks refs,
    ks `prefix_of` keys ∧ NoDup ks ∧
    Forall2 (λ k r, dict_lookup m k = Some r) ks refs ∧
    calls (trace (spawn_sampled w time_interval m keys s).2)
    = calls (trace s) ++ refs ∧
    ((spawn_sampled w time_interval m keys s).1 = Return () → ks = keys).
Proof.
  revert m s. induction keys as [|key rest IH]; intros m s Hnd; simpl.
  { split; [done|]. exists [], []. rewrite app_nil_r.
    repeat split; first [done|constructor]. }
  destruct (dict_lookup m key) as [obj|] eqn:Hkey.
  2:{ rewrite (bind_Raise _ _ s (KeyError key) s)
        by (by rewrite dict_get_lookup, Hkey).
      split; [done|]. exists [], []. rewrite app_nil_r. simpl.
      repeat split; first [done|constructor|apply prefix_nil]. }
  rewrite (bind_Return _ _ s obj s) by (by rewrite dict_get_lookup, Hkey).
  pose proof (spawn_model_calls obj s) as Hc.
  pose proof (ends_spawn_model obj s) as He.
  destruct (spawn_model w obj s) as [[[]|e|] s1] eqn:Hsp; simpl in Hc, He;
    [| |done].
  2:{ rewrite (bind_Raise _ _ _ _ _ Hsp). simpl. split; [done|].
      exists [key], [obj]. split; [by apply prefix_cons, prefix_nil|].
      split; [apply NoDup_singleton|]. split; [by repeat constructor|].
      split; [done|done]. }
  rewrite (bind_Return _ _ _ _ _ Hsp).
  destruct (pause_runs time_interval s1) as (s2 & Hp & _ & Hc2 & _).
  rewrite (bind_Return _ _ _ _ _ Hp).
  destruct (IH (dict_del m key) s2 (dict_del_NoDup m key Hnd))
    as (Hend & ks & refs & Hpre & Hks & Hrefs & Hcalls & Hall).
  split; [done|]. exists (key :: ks), (obj :: refs).
  split; [by apply prefix_cons|]. split.
  { apply NoDup_cons. split; [|done].
    intros (i & Hi)%list_elem_of_lookup_1.
    destruct (Forall2_lookup_l _ _ _ _ _ Hrefs Hi) as (r & _ & Hr).
    by apply dict_del_lookup_Some in Hr as [? _]. }
  split.
  { constructor; [done|]. eapply Forall2_impl; [exact Hrefs|].
    intros k r Hr. simpl in Hr. by apply dict_del_lookup_Some in Hr as [_ ?]. }
  split.
  { rewrite Hcalls, Hc2, Hc, <-app_assoc. done. }
  intros Hret. by rewrite (Hall Hret).
Qed.

End sampled.

(** With the flag for a random order on, the script ends normally once
    the configuration is parsed, whatever [spawn_model] does: an exception
    ends the loop and is dropped. The models handed to [spawn_model] are
    those of a first part of the sampled keys, in the order of the sample;
    no key is used twice and no model is handed over twice. *)
Theorem main_in_random_order (w : World) (p : Params) (s : State) (m : dict) :
  random_order p = true →
  (parse_yaml w (yaml_package_name p) (yaml_relative_path p) s).1 = Return m →
  (main w p s).1 = Return () ∧
  ∃ ks refs,
    ks `prefix_of` sample w m.*1 ∧ NoDup ks ∧ NoDup refs ∧
    Forall2 (λ k r, dict_lookup m k = Some r) ks refs ∧
    calls (trace (main w p s).2) = calls (trace s) ++ refs.
Proof.
  intros Hflag Hm.
  destruct (parse_yaml w (yaml_package_name p) (yaml_relative_path p) s)
    as [o s1] eqn:Hparse.
  simpl in Hm. subst o.
  destruct (parse_yaml_Return _ _ _ _ _ _ Hparse) as (Hnd & Hc1 & _).
  pose proof (parse_yaml_values _ _ _ _ _ _ Hparse) as Hnd2.
  unfold main. rewrite (bind_Return _ _ _ _ _ Hparse), Hflag.
  destruct (spawn_sampled_calls w (time_interval p) (sample w m.*1) m s1 Hnd)
    as (Hend & ks & refs & Hpre & Hks & Hrefs & Hcalls & _).
  unfold try_except.
  destruct (spawn_sampled w (time_interval p) m (sample w m.*1) s1)
    as [[[]|e|] s2]; simpl in *; [| |done];
    (split; [done|]); exists ks, refs;
    (split; [done|]); (split; [done|]);
    (split; [by eapply dict_lookup_NoDup|]); (split; [done|]);
    by rewrite Hcalls, Hc1.
Qed.

Lemma main_in_random_order_witness :
  let w := world [entry "arm" "urdf" None "pkg";
                  entry "table" "sdf" None "pkg"] true spawned in
  let p := mkParams "pkg" "/config/models.yaml" true 1 in
  random_order p = true ∧
  (parse_yaml w "pkg" "/config/models.yaml" start).1
  = Return [("arm", 0); ("table", 1)] ∧
  (main w p start).1 = Return () ∧
  calls (trace (main w p start).2) = [1; 0].
Proof.
  split; [reflexivity|]. split; [by vm_compute|].
  destruct (main_in_random_order
              (world [entry "arm" "urdf" None "pkg";
                      entry "table" "sdf" None "pkg"] true spawned)
              (mkParams "pkg" "/config/models.yaml" true 1) start
              [("arm", 0); ("table", 1)] eq_refl)
    as (Hret & _); [by vm_compute|].
  split; [exact Hret|]. by vm_compute.
Defined.

(** ** The waits of [spawn_model] *)

(** The events of a call of [spawn_model], the waits among them: the
    branch for [sdf] waits with its timeout, and the branch for [urdf]
    raises before it comes to its wait. *)
Lemma spawn_model_waits w r s :
  ∃ evs, (spawn_model w r s).2 = after s (Called r :: evs) ∧
         Forall bounded_wait evs.
Proof.
  unfold spawn_model.
  rewrite (bind_Return _ _ s () (after s [Called r])) by done.
  lazymatch goal with
  | |- ∃ evs, (?c _).2 = _ ∧ _ => assert (Hq : quiet bounded_wait c)
  end.
  { apply quiet_bind; [apply reads_quiet, reads_attr|intros package_name].
    apply quiet_bind; [apply reads_quiet, reads_make_pose|intros spawn_pose].
    apply quiet_bind; [apply reads_quiet, reads_attr|intros ty].
    destruct (decide (ty = "sdf")).
    { apply quiet_bind; [by apply quiet_sdf_find_package|intros [mp mx]].
      apply quiet_bind; [by apply quiet_sdf_read_model|intros mx'].
      apply quiet_bind; [|intros prox; by apply quiet_call_spawn].
      unfold sdf_wait.
      apply quiet_try; [|intros ex; by apply quiet_service_call_failed].
      apply quiet_bind; [by apply quiet_emit|intros _].
      apply quiet_bind; [by apply quiet_wait_for_service|intros _].
      apply quiet_ret. }
    apply quiet_bind; [apply reads_quiet, reads_attr|intros ty'].
    destruct (decide (ty' = "urdf")).
    { intros s0.
      destruct (urdf_read_model_raises w r package_name s0) as (ex & Hex & _).
      rewrite (bind_Raise _ _ _ _ _ Hex). simpl. split; [done|].
      exists []. by rewrite app_nil_r. }
    apply quiet_bind; [apply reads_quiet, reads_attr|intros ty''].
    apply quiet_bind; [by apply quiet_emit|intros _].
    by apply quiet_call_spawn. }
  destruct (Hq (after s [Called r])) as [Hh (evs & Ht & Hevs)].
  exists evs. split; [|done].
  destruct (_.2) as [h t]. simpl in *. subst. unfold after. simpl.
  by rewrite <-app_assoc.
Qed.

(** C7: in every world, for every model and in every state, the call of
    [spawn_model] ends, by a return or by an exception, and every wait for
    a service that it makes has the timeout of five seconds. The branch
    for [sdf] waits with that timeout; the branch for [urdf] comes to no
    wait, and so to none without a timeout, because its first statement
    raises. *)
Theorem spawn_model_waits_are_bounded (w : World) (model_object : ref)
  (s : State) :
  (spawn_model w model_object s).1 ≠ Blocked ∧
  ∀ service timeout,
    WaitForService service timeout
    ∈ drop (length (trace s)) (trace (spawn_model w model_object s).2) →
    timeout = Some 5%float.
Proof.
  split; [apply ends_spawn_model|]. intros service timeout.
  destruct (spawn_model_waits w model_object s) as (evs & -> & Hevs).
  rewrite new_events. intros [[=]|Hin]%elem_of_cons.
  by apply (proj1 (Forall_forall _ _) Hevs) in Hin.
Qed.

(** ** The script on concrete inputs *)

(** C2 (the code departs from it): with the entries
    [{name: a, unique_name: u}] and [{name: b}], the object made from the
    second entry, which has no unique name of its own, ends with the unique
    name [u] of the first entry and not with its own name [b]: the loop
    counts only the objects it names, and indexes the list of all names
    with that count. *)
Theorem unique_name_of_wrong_entry :
  let res := parse_yaml
               (world [entry "a" "sdf" (Some "u") "pkg";
                       entry "b" "sdf" None "pkg"] true spawned)
               "pkg" "/config/models.yaml" start in
  res.1 = Return [("u", 0); ("b", 1)] ∧
  unique_name <$> heap res.2 !! 0 = Some (Some "u") ∧
  name <$> heap res.2 !! 1 = Some "b" ∧
  unique_name <$> heap res.2 !! 1 = Some (Some "u").
Proof. vm_compute. done. Qed.

(** C3 (the code departs from it): on [['a', 'a_1', 'a']] the second [a]
    is renamed to [a_1], which is already there, so the output has a
    repeated name and the registry built from three entries has two. *)
Theorem rename_duplicates_collision :
  rename_duplicates ["a"; "a_1"; "a"] = ["a"; "a_1"; "a_1"] ∧
  ¬ NoDup (rename_duplicates ["a"; "a_1"; "a"]) ∧
  (parse_yaml
     (world [entry "a" "sdf" None "pkg"; entry "a_1" "sdf" None "pkg";
             entry "a" "sdf" None "pkg"] true spawned)
     "pkg" "/config/models.yaml" start).1
  = Return [("a", 0); ("a_1", 2)].
Proof.
  split; [by vm_compute|]. split; [|by vm_compute].
  replace (rename_duplicates ["a"; "a_1"; "a"]) with ["a"; "a_1"; "a_1"]
    by (by vm_compute).
  intros Hnd. apply NoDup_cons_1_2 in Hnd. apply NoDup_cons_1_1 in Hnd.
  apply Hnd. by left.
Qed.

(** C1 (the code departs from it): [spawn_model] lets exceptions through.
    For a model of type [urdf] it raises whenever it gets as far as the
    dispatch: [ResourceNotFound] when the package is missing (only the
    branch for [sdf] catches it), and [TypeError] from the sum of a path
    and a string when the package is there. For a model of type [sdf] a
    failing call of the service raises [ServiceException], which the last
    [try] does not catch. In the loop of the script the exception ends the
    run: the model after the failing one is never handed to [spawn_model]. *)
Theorem spawn_model_lets_exceptions_through :
  (spawn_model (world [] true spawned) 0
     (mkState [model "arm" "urdf" "nowhere"] [])).1
  = Raise (ResourceNotFound "nowhere") ∧
  (spawn_model (world [] true spawned) 0
     (mkState [model "arm" "urdf" "pkg"] [])).1
  = Raise (TypeError "unsupported operand type(s) for +: 'PosixPath' and 'str'") ∧
  (spawn_model (world [] true None) 0
     (mkState [model "table" "sdf" "pkg"] [])).1
  = Raise (ServiceException "service call failed") ∧
  let res := main (world [entry "table" "sdf" None "pkg";
                          entry "chair" "sdf" None "pkg"] true None)
               (mkParams "pkg" "/config/models.yaml" false 1) start in
  res.1 = Raise (ServiceException "service call failed") ∧
  calls (trace res.2) = [0].
Proof. vm_compute. done. Qed.

(** C8 (the code departs from it, by the defect of C1): the registry has
    the two models [arm] and [table]. In stored order the call of
    [spawn_model] for [arm] raises and [table] is never passed to it. In
    sampled order, with [arm] drawn first, the call for [arm] raises, the
    [except] around the loop swallows the exception, and the run ends
    there: [table] is never passed either, and no pause is made. With two
    models of type [sdf] and a service that answers, each model is passed
    once, in stored order, with a pause after each. *)
Theorem main_stops_at_first_exception :
  let arm := entry "arm" "urdf" None "pkg" in
  let table := entry "table" "sdf" None "pkg" in
  let chair := entry "chair" "sdf" None "pkg" in
  let stored := main (world [arm; table] true spawned)
                  (mkParams "pkg" "/config/models.yaml" false 1) start in
  let sampled := main (world [table; arm] true spawned)
                   (mkParams "pkg" "/config/models.yaml" true 1) start in
  let good := main (world [table; chair] true spawned)
                (mkParams "pkg" "/config/models.yaml" false 1) start in
  length (heap stored.2) = 2 ∧ calls (trace stored.2) = [0] ∧
  stored.1
  = Raise (TypeError "unsupported operand type(s) for +: 'PosixPath' and 'str'") ∧
  length (heap sampled.2) = 2 ∧ calls (trace sampled.2) = [1] ∧
  sampled.1 = Return () ∧ sleeps (trace sampled.2) = [] ∧
  good.1 = Return () ∧ calls (trace good.2) = [0; 1] ∧
  sleeps (trace good.2) = [1; 1]%float.
Proof. vm_compute. done. Qed.

(** The second [try] of the branch for [urdf], taken by itself, waits
    without a timeout and does not end when the service stays away, where
    the one of the branch for [sdf] ends by an exception that is logged.
    No call of [spawn_model] comes to it, as the branch raises before. *)
Remark urdf_wait_has_no_timeout :
  (∀ w s, ∃ evs,
     trace (urdf_wait w s).2
     = trace s ++ [Log DEBUG "Waiting for service gazebo/spawn_urdf_model";
                   WaitForService "gazebo/spawn_urdf_model" None] ++ evs) ∧
  urdf_wait (world [] false spawned) start
  = (Blocked,
     mkState [] [Log DEBUG "Waiting for service gazebo/spawn_urdf_model";
                 WaitForService "gazebo/spawn_urdf_model" None]) ∧
  sdf_wait (world [] false spawned) start
  = (Return None,
     mkState [] [Log DEBUG "Waiting for service gazebo/spawn_sdf_model";
                 WaitForService "gazebo/spawn_sdf_model" (Some 5%float);
                 Log ERROR "Service call failed: timeout exceeded while waiting for service"]).
Proof.
  split; [|by vm_compute].
  intros w s. unfold urdf_wait, try_except, wait_for_service, log, emit.
  unfold mbind, M_bind. simpl.
  destruct (service_up w "gazebo/spawn_urdf_model"); simpl;
    exists []; by rewrite <-app_assoc.
Qed.

(** C6 (the code departs from it): models of the types [box] and
    [sphere], which the comments of [Model] name as types, are handed to
    [spawn_model] in a world where every service is up and accepts every
    call. With a pose, the call returns, having logged that the type is
    not known, and no spawn call is in its trace; with the pose that the
    dataclass gives when the entry has none, the call raises before it
    logs anything. *)
Theorem primitives_are_not_spawned :
  let w := world [] true spawned in
  let run ty pose :=
    spawn_model w 0
      (mkState [mkModel "crate" ty "models" (Some "crate") "" false false
                  pose (Some [1; 1; 1]%float)] []) in
  let posed := Some [1; 2; 3; 0; 0; 0]%float in
  ((run "box" posed).1 = Return () ∧
   service_calls (trace (run "box" posed).2) = [] ∧
   Log ERROR "Error: Model type not know, model_type = box"
   ∈ trace (run "box" posed).2) ∧
  ((run "sphere" posed).1 = Return () ∧
   service_calls (trace (run "sphere" posed).2) = [] ∧
   Log ERROR "Error: Model type not know, model_type = sphere"
   ∈ trace (run "sphere" posed).2) ∧
  (∃ e, (run "box" None).1 = Raise e) ∧
  trace (run "box" None).2 = [Called 0].
Proof.
  vm_compute.
  repeat split; try done; try by eexists.
  - apply elem_of_cons. right. apply elem_of_cons. by left.
  - apply elem_of_cons. right. apply elem_of_cons. by left.
Qed.


(** C9: a single slash in front of a relative path that is not empty and
    does not itself start with a slash changes nothing: [parse_yaml]
    returns the same registry, and leaves the same heap and trace. *)
Theorem parse_yaml_leading_slash (w : World) (package_name p : string)
  (s : State) :
  p ≠ "" → starts_with_slash p = false →
  parse_yaml w package_name ("/" +:+ p) s = parse_yaml w package_name p s.
Proof.
  intros Hne Hp. destruct p as [|c rest]; [done|]. simpl in Hp.
  unfold parse_yaml. simpl. rewrite Hp. done.
Qed.

Lemma parse_yaml_leading_slash_witness :
  "config/models.yaml" ≠ "" ∧ starts_with_slash "config/models.yaml" = false ∧
  parse_yaml (world [entry "table" "sdf" None "pkg"] true spawned) "pkg"
    ("/" +:+ "config/models.yaml") start
  = parse_yaml (world [entry "table" "sdf" None "pkg"] true spawned) "pkg"
      "config/models.yaml" start.
Proof.
  split; [discriminate|]. split; [reflexivity|].
  apply parse_yaml_leading_slash; [discriminate|reflexivity].
Defined.
